(** * PIDControllerResponse: the discrete-time PID simulation engine

    A shallow embedding of the Go sources

      - [simulation/simulation.go]: package [simulation], the dt-scaled PID
        controller, the first-order lag plant and the time-stepping driver;
      - [main.go] and [simulationSytemElec.go]: package [main], the PID
        without dt, the electrical reactive-power plant and its closed loop;

    and the properties of these programs.

    Go's [float64] is IEEE 754 binary64.  It is modelled by Rocq's primitive
    [float], whose operations are the same correctly rounded binary64
    operations (with a single NaN), specified by [SpecFloat].  Every Go
    operation is taken to round on its own, as the amd64 compiler emits it
    (no fused multiply-add).  Go's [int] is modelled by [Z]. *)

From Stdlib Require Import ZArith List Bool Lia Zpower.
From Stdlib Require QArith Qround Qpower.
From Stdlib Require Import Floats.
Import ListNotations.

(* A decimal literal denotes the nearest binary64 value, as it does in Go. *)
Set Warnings "-inexact-float".

Local Open Scope float_scope.

(** ** Go's conversions and counted loops *)

Module Go.

(** The integer part of a finite binary64 value (its fraction discarded,
    that is, rounded toward zero); [None] for NaN and the infinities. *)
Definition trunc (x : float) : option Z :=
  match Prim2SF x with
  | S754_zero _ => Some 0%Z
  | S754_finite s m e => Some (cond_Zopp s (Z.shiftl (Zpos m) e))
  | S754_infinity _ | S754_nan => None
  end.

Definition min_int64 : Z := (- 2 ^ 63)%Z.
Definition max_int64 : Z := (2 ^ 63 - 1)%Z.

(** The conversion [int(x)] of a [float64].  When the integer part does not
    fit an [int] the language leaves the result to the implementation:
    amd64's CVTTSD2SQ yields the smallest [int64]. *)
Definition int (x : float) : Z :=
  match trunc x with
  | Some z =>
      if ((min_int64 <=? z) && (z <=? max_int64))%Z then z else min_int64
  | None => min_int64
  end.

(** [for k := k0; k <= n; k++ { body }] with a body that does not read [k]:
    the body runs [n - k0 + 1] times, and not at all when that is not
    positive. *)
Definition for_le {S : Type} (k0 n : Z) (body : S -> S) (s : S) : S :=
  Nat.iter (Z.to_nat (n - k0 + 1)) body s.

(** [for k := k0; k < n; k++ { body }], likewise. *)
Definition for_lt {S : Type} (k0 n : Z) (body : S -> S) (s : S) : S :=
  Nat.iter (Z.to_nat (n - k0)) body s.

(** [s[len(s)-1]] on a slice of [float64].  Every slice indexed this way in
    the sources starts with one element and only grows, so the default is
    never returned. *)
Definition last_elem (s : list float) : float := last s 0.

End Go.

(** ** The iteration count as a real number

    The specification takes [N] as a real number of which [int(N)] steps
    are run, [int] truncating toward zero.  This is said here in those
    words, over the rational number a binary64 value stands for;
    [SpecFacts] compares it with the conversion [Go.trunc] of the code. *)

Module Spec.

(** The number [(-1)^s * m * 2^e] a finite binary64 value stands for. *)
Definition value (x : float) : option QArith_base.Q :=
  match Prim2SF x with
  | S754_zero _ => Some (QArith_base.inject_Z 0)
  | S754_finite s m e =>
      Some (QArith_base.Qmult
              (QArith_base.inject_Z (cond_Zopp s (Zpos m)))
              (QArith_base.Qpower (QArith_base.inject_Z 2) e))
  | S754_infinity _ | S754_nan => None
  end.

(** Truncation toward zero: the floor of a number that is not negative,
    the ceiling of a negative one. *)
Definition truncate (q : QArith_base.Q) : Z :=
  if QArith_base.Qle_bool (QArith_base.inject_Z 0) q
  then Qround.Qfloor q else Qround.Qceiling q.

Definition integer_part (x : float) : option Z :=
  match value x with
  | Some q => Some (truncate q)
  | None => None
  end.


End Spec.

(** ** Go's [math] package, as far as the sources use it *)

Module math.

(** [math.Pi], rounded to binary64 where it meets a [float64]. *)
Definition Pi : float := 0x1.921fb54442d18p+1.

Definition Sqrt (x : float) : float := sqrt x.

(** [math.Pow(x, 2)] as the library computes it: the special cases of its
    switch, then one squaring of the [Frexp] fraction, scaled back by
    [Ldexp]. *)
Definition Pow_2 (x : float) : float :=
  if x =? 1 then 1
  else if is_nan x then nan
  else if x =? 0 then 0
  else if is_infinity x then infinity
  else
    let (x1, xe) := Z.frexp x in
    let x1 := x1 * x1 in
    let xe := (2 * xe)%Z in
    let (x1, xe) := if x1 <? 0.5 then (x1 + x1, (xe - 1)%Z) else (x1, xe) in
    Z.ldexp (1 * x1) xe.

(** [math.Pow] at the one exponent the sources pass.  Other exponents need
    the library's [Exp] and [Log]; they are outside this model and give NaN
    here. *)
Definition Pow (x y : float) : float :=
  if y =? 2 then Pow_2 x else nan.

End math.

(** ** Package [simulation] ([simulation/simulation.go]) *)

Module simulation.

Record PID : Type := mkPID {
  Kp : float;
  Ki : float;
  Kd : float;
  integral : float;
  previouserror_pid : float
}.

Definition set_integral (pid : PID) (v : float) : PID :=
  mkPID (Kp pid) (Ki pid) (Kd pid) v (previouserror_pid pid).

Definition set_previouserror_pid (pid : PID) (v : float) : PID :=
  mkPID (Kp pid) (Ki pid) (Kd pid) (integral pid) v.

(** [NewPID]: the fields it does not name take Go's zero value. *)
Definition NewPID (kp ki kd : float) : PID :=
  mkPID kp ki kd 0 0.

(** [func (pid *PID) Compute(setpoint, currentValue, dt float64) float64]:
    the receiver is passed in, and returned as the call leaves it. *)
Definition Compute (pid : PID) (setpoint currentValue dt : float)
  : float * PID :=
  let error_pid := setpoint - currentValue in
  let proportional := Kp pid * error_pid in
  let pid := set_integral pid (integral pid + error_pid * dt) in
  let integral := Ki pid * integral pid in
  let derivative := Kd pid * (error_pid - previouserror_pid pid) / dt in
  let pid := set_previouserror_pid pid error_pid in
  let output := proportional + integral + derivative in
  (output, pid).

Definition DynamicResponse (un yn dt Tau K : float) : float :=
  (dt / Tau) * (K * un - yn) + yn.

(** The variables of [Simulation] that its loop updates. *)
Record loop_state : Type := mkLoop {
  measure : list float;
  T : list float;
  pid : PID;
  un : float
}.

Definition loop_body (Sp Tau K dt : float) (s : loop_state) : loop_state :=
  let (un, pid) := Compute (pid s) Sp (Go.last_elem (measure s)) dt in
  let ynn := DynamicResponse un (Go.last_elem (measure s)) dt Tau K in
  let measure := measure s ++ [ynn] in
  let T := T s ++ [Go.last_elem (T s) + dt] in
  mkLoop measure T pid un.

Definition loop_init (P Ki Kd : float) : loop_state :=
  mkLoop [0] [0] (NewPID P Ki Kd) 0.

(** The state in which the loop of [Simulation] ends. *)
Definition Simulation_loop (Sp Tau K P Ki Kd dt N : float) : loop_state :=
  Go.for_le 1 (Go.int N) (loop_body Sp Tau K dt) (loop_init P Ki Kd).

Definition Simulation (Sp Tau K P Ki Kd dt N : float)
  : list float * list float :=
  let s := Simulation_loop Sp Tau K P Ki Kd dt N in
  (T s, measure s).

End simulation.

(** ** Package [main] ([main.go], [simulationSytemElec.go]) *)

Module main.

Record PID : Type := mkPID {
  Kp : float;
  Ki : float;
  Kd : float;
  integral : float;
  previouserror_pid : float
}.

Definition set_integral (pid : PID) (v : float) : PID :=
  mkPID (Kp pid) (Ki pid) (Kd pid) v (previouserror_pid pid).

Definition set_previouserror_pid (pid : PID) (v : float) : PID :=
  mkPID (Kp pid) (Ki pid) (Kd pid) (integral pid) v.

Definition NewPID (kp ki kd : float) : PID :=
  mkPID kp ki kd 0 0.

(** [func (pid *PID) Compute(setpoint, currentValue float64) float64]. *)
Definition Compute (pid : PID) (setpoint currentValue : float)
  : float * PID :=
  let error_pid := setpoint - currentValue in
  let proportional := Kp pid * error_pid in
  let pid := set_integral pid (integral pid + error_pid) in
  let integral := Ki pid * integral pid in
  let derivative := Kd pid * (error_pid - previouserror_pid pid) in
  let pid := set_previouserror_pid pid error_pid in
  let output := proportional + integral + derivative in
  (output, pid).

Record ElectricalSystem : Type := mkSys {
  L : float;
  C : float;
  R : float;
  f : float;
  UPoc : float
}.

Section Plant.

(** [math.Pow] and [math.Atan2] belong to Go's library, not to the
    repository: the plant is read over any two functions in their place. *)
Variable Pow : float -> float -> float.
Variable Atan2 : float -> float -> float.

Definition ComputeImpedance (sys : ElectricalSystem) : float * float :=
  let X_L := 2 * math.Pi * f sys * L sys in
  let X_C := 1 / (2 * math.Pi * f sys * C sys) in
  let Z := math.Sqrt (Pow (R sys) 2 + Pow (X_L - X_C) 2) in
  let theta := Atan2 (X_L - X_C) (R sys) in
  (Z, theta).

Definition ComputeReactivePowerSys (sys : ElectricalSystem) (I : float)
  : float :=
  let X_L := 2 * math.Pi * f sys * L sys in
  let X_C :=
    if C sys =? 0 then 0 else 1 / (2 * math.Pi * f sys * C sys) in
  let Q_L := Pow I 2 * X_L in
  let Q_C := Pow I 2 * X_C in
  let Q := Q_L - Q_C in
  Q.

(** [ComputeS] and [ComputeQPoc] also print their result; the output
    stream is not modelled. *)
Definition ComputeS (sys : ElectricalSystem) (Pond Qond : float) : float :=
  let S := math.Sqrt (Pow Pond 2 + Pow Qond 2) in
  S.

Definition ComputeQPoc (sys : ElectricalSystem) (Pond Qond : float)
  : float :=
  let S := ComputeS sys Pond Qond in
  let I := S / UPoc sys in
  let Qsys := ComputeReactivePowerSys sys I in
  let Qpoc := Qond + Qsys in
  Qpoc.

(** The system [Simulation] builds. *)
Definition reference_system : ElectricalSystem :=
  mkSys 2.8e-3 0 0 50 6700.

Definition Simulation (Pond Qond : float) : float :=
  let sys := reference_system in
  let QPoc := ComputeQPoc sys Pond Qond in
  QPoc.

(** The variables of [main] that its loop updates. *)
Record loop_state : Type := mkLoop {
  QPoc : list float;
  Qond : list float;
  pid : PID;
  T : list float
}.

Definition loop_body (QPoc_ref Pond dt : float) (s : loop_state)
  : loop_state :=
  let (u, pid) := Compute (pid s) QPoc_ref (Go.last_elem (QPoc s)) in
  let Qond := Qond s ++ [u] in
  let QPoc := QPoc s ++ [Simulation Pond (Go.last_elem Qond)] in
  let newT := Go.last_elem (T s) + dt in
  let T := T s ++ [newT] in
  mkLoop QPoc Qond pid T.

(** The closed loop of [main], its local constants taken as arguments; the
    result is what [main] hands to the plotting routine [Line]. *)
Definition closed_loop (QPoc_ref Pond kp ki kd : float) (numIterations : Z)
  (dt : float) : loop_state :=
  let QPoc := [Simulation Pond 0] in
  let Qond := [0] in
  let pid := NewPID kp ki kd in
  let T := [0] in
  Go.for_lt 1 numIterations (loop_body QPoc_ref Pond dt)
    (mkLoop QPoc Qond pid T).

(** [main] with the constants of the source. *)
Definition main : loop_state :=
  closed_loop 0 1e6 0.01 0.1 0 1000 0.001.

End Plant.

End main.

(** ** The two controllers side by side *)

Module Controllers.

(** A controller of package [main] read as one of package [simulation]:
    the two structs have the same fields. *)
Definition to_simulation (pid : main.PID) : simulation.PID :=
  simulation.mkPID (main.Kp pid) (main.Ki pid) (main.Kd pid)
    (main.integral pid) (main.previouserror_pid pid).

(** A sequence of calls [pid.Compute(setpoint, currentValue)] on one
    controller of package [main]: the outputs in call order, and the
    controller as the last call leaves it. *)
Fixpoint main_calls (pid : main.PID) (calls : list (float * float))
  : list float * main.PID :=
  match calls with
  | [] => ([], pid)
  | (setpoint, currentValue) :: rest =>
      let (out, pid) := main.Compute pid setpoint currentValue in
      let (outs, pid) := main_calls pid rest in
      (out :: outs, pid)
  end.

(** The same calls as [pid.Compute(setpoint, currentValue, dt)] on a
    controller of package [simulation]. *)
Fixpoint simulation_calls (pid : simulation.PID) (dt : float)
  (calls : list (float * float)) : list float * simulation.PID :=
  match calls with
  | [] => ([], pid)
  | (setpoint, currentValue) :: rest =>
      let (out, pid) := simulation.Compute pid setpoint currentValue dt in
      let (outs, pid) := simulation_calls pid dt rest in
      (out :: outs, pid)
  end.

End Controllers.

(** ** [Simulation] inside a running process

    [NewPID] returns a pointer and [Compute] updates the controller behind
    it.  Here the controllers a process has allocated live in a heap, which
    every call of [Simulation] receives and hands on: what an earlier call
    left behind is there when the next one runs. *)

Module Process.

Definition heap : Type := list simulation.PID.

Definition pointer : Type := nat.

Definition alloc (v : simulation.PID) (h : heap) : pointer * heap :=
  (length h, h ++ [v]).

Definition load (p : pointer) (h : heap) : option simulation.PID :=
  nth_error h p.

Fixpoint store (p : pointer) (v : simulation.PID) (h : heap) : heap :=
  match h, p with
  | [], _ => []
  | _ :: rest, O => v :: rest
  | x :: rest, S p' => x :: store p' v rest
  end.

Definition NewPID (kp ki kd : float) (h : heap) : pointer * heap :=
  alloc (simulation.NewPID kp ki kd) h.

(** [pid.Compute(...)] through the pointer; [None] is the panic of a
    pointer that holds no controller. *)
Definition Compute (p : pointer) (setpoint currentValue dt : float)
  (h : heap) : option (float * heap) :=
  match load p h with
  | Some pid =>
      let (out, pid) := simulation.Compute pid setpoint currentValue dt in
      Some (out, store p pid h)
  | None => None
  end.

Record loop_state : Type := mkLoop {
  measure : list float;
  T : list float;
  un : float;
  mem : heap
}.

Definition loop_body (pid : pointer) (Sp Tau K dt : float)
  (st : option loop_state) : option loop_state :=
  match st with
  | None => None
  | Some s =>
      match Compute pid Sp (Go.last_elem (measure s)) dt (mem s) with
      | None => None
      | Some (un, h) =>
          let ynn :=
            simulation.DynamicResponse un (Go.last_elem (measure s)) dt Tau K in
          let measure := measure s ++ [ynn] in
          let T := T s ++ [Go.last_elem (T s) + dt] in
          Some (mkLoop measure T un h)
      end
  end.

(** [Simulation] run on the heap [h]: the two slices it returns and the
    heap it leaves, or [None] if it panics. *)
Definition Simulation (Sp Tau K P Ki Kd dt N : float) (h : heap)
  : option ((list float * list float) * heap) :=
  let (pid, h) := NewPID P Ki Kd h in
  match
    Go.for_le 1 (Go.int N) (loop_body pid Sp Tau K dt)
      (Some (mkLoop [0] [0] 0 h))
  with
  | Some s => Some ((T s, measure s), mem s)
  | None => None
  end.

End Process.

(** ** Trajectories *)

Module Trajectory.

(** Every sample of the time axis [t] after the first is the binary64 sum
    of the sample before it and [dt]. *)
Definition spaced (dt : float) (t : list float) : Prop :=
  forall k : nat,
    (1 <= k < length t)%nat -> nth k t 0 = nth (k - 1) t 0 + dt.

End Trajectory.

(** ** Shapes of binary64 values *)

Module Binary64.

Definition SF_zero (x : spec_float) : bool :=
  match x with
  | S754_zero _ => true
  | _ => false
  end.

Definition SF_finite (x : spec_float) : bool :=
  match x with
  | S754_zero _ | S754_finite _ _ _ => true
  | _ => false
  end.

Definition SF_nan (x : spec_float) : bool :=
  match x with
  | S754_nan => true
  | _ => false
  end.

(** NaN, a zero, or a value with the sign bit clear. *)
Definition SF_nonneg_or_nan (x : spec_float) : bool :=
  match x with
  | S754_nan | S754_zero _ | S754_infinity false | S754_finite false _ _ =>
      true
  | _ => false
  end.

(** Not NaN, and a zero or a value with the sign bit clear. *)
Definition SF_nonneg (x : spec_float) : bool :=
  match x with
  | S754_zero _ | S754_infinity false | S754_finite false _ _ => true
  | _ => false
  end.

Definition SF_one : spec_float := S754_finite false 4503599627370496 (-52).

End Binary64.

(** ** The plotting front ends ([graph.go] of both packages)

    [Line] and [MultipleLine] copy their slices into the points of a line
    and hand them to the plotting library.  They are modelled up to that
    point: the result is the list of lines that reach [plotter.NewLine], one
    list of points each; what the library does with them (it refuses NaN
    and the infinities) is not modelled. *)

Module graph.

(** [plotter.XY]: the fields [X] and [Y]. *)
Definition XY : Type := (float * float)%type.

Inductive outcome : Type :=
| Plot (lines : list (list XY))
| Return
| IndexPanic.

(** [points[i] = v] on a slice that has an index [i]. *)
Fixpoint set_nth (i : nat) (v : XY) (points : list XY) : list XY :=
  match points, i with
  | [], _ => []
  | _ :: rest, O => v :: rest
  | p :: rest, S i' => p :: set_nth i' v rest
  end.

(** One turn of [for i := range X]: [points[i].X = X[i]], then
    [points[i].Y = Y[i]]; [None] when an index is out of range. *)
Definition fill_point (X Y : list float) (acc : option (list XY)) (i : nat)
  : option (list XY) :=
  match acc with
  | None => None
  | Some points =>
      match nth_error X i with
      | None => None
      | Some x =>
          let points := set_nth i (x, snd (nth i points (0, 0))) points in
          match nth_error Y i with
          | None => None
          | Some y => Some (set_nth i (fst (nth i points (0, 0)), y) points)
          end
      end
  end.

(** [points := make(plotter.XYs, len(X))] and the loop over [range X]. *)
Definition make_points (X Y : list float) : option (list XY) :=
  fold_left (fill_point X Y) (seq 0 (length X))
    (Some (repeat (0, 0) (length X))).

(** [Line] of package [main]: on a length mismatch [fmt.Errorf] builds an
    error value that is dropped, and the function goes on. *)
Definition main_Line (X Y : list float) : outcome :=
  let _ := if negb (length X =? length Y)%nat then tt else tt in
  match make_points X Y with
  | Some points => Plot [points]
  | None => IndexPanic
  end.

(** [Line] of package [simulation]: it returns on a length mismatch. *)
Definition Line (X Y : list float) : outcome :=
  if negb (length X =? length Y)%nat then Return
  else
    match make_points X Y with
    | Some points => Plot [points]
    | None => IndexPanic
    end.

(** One turn of the second loop of [MultipleLine]: the points of [Y] are
    built and [p.Add(line)] appends the line to the plot. *)
Definition add_line (X : list float) (acc : outcome) (Y : list float)
  : outcome :=
  match acc with
  | Plot lines =>
      match make_points X Y with
      | Some points => Plot (lines ++ [points])
      | None => IndexPanic
      end
  | _ => acc
  end.

(** [MultipleLine] of package [simulation]: a first loop returns at the
    first [Y] whose length differs from that of [X]. *)
Definition MultipleLine (X : list float) (Ys : list (list float))
  : outcome :=
  if existsb (fun Y => negb (length X =? length Y)%nat) Ys then Return
  else fold_left (add_line X) Ys (Plot []).

End graph.

(** * Facts about binary64 arithmetic

    Each is proved from the specification of the primitive operations
    ([FloatAxioms]) by computing on [spec_float]. *)

Module F64.

Import Binary64.

(** ** The shape of a value, read off its specification *)

Lemma SFcompare_refl_finite (s : bool) (m : positive) (e : Z) :
  SFcompare (S754_finite s m e) (S754_finite s m e) = Some Eq.
Proof.
  cbn. rewrite Z.compare_refl, Pos.compare_cont_refl. now destruct s.
Qed.

Lemma is_nan_spec (x : float) : is_nan x = SF_nan (Prim2SF x).
Proof.
  unfold is_nan. rewrite eqb_spec. unfold SFeqb.
  destruct (Prim2SF x) as [s|s| |s m e].
  - reflexivity.
  - now destruct s.
  - reflexivity.
  - now rewrite SFcompare_refl_finite.
Qed.

Lemma is_zero_spec (x : float) : is_zero x = SF_zero (Prim2SF x).
Proof.
  unfold is_zero. rewrite eqb_spec.
  change (Prim2SF zero) with (S754_zero false).
  destruct (Prim2SF x) as [s|s| |s m e]; try reflexivity; now destruct s.
Qed.

Lemma is_finite_spec (x : float) : is_finite x = SF_finite (Prim2SF x).
Proof.
  unfold is_finite, is_infinity. rewrite is_nan_spec, eqb_spec, abs_spec.
  change (Prim2SF infinity) with (S754_infinity false).
  destruct (Prim2SF x) as [s|s| |s m e]; reflexivity.
Qed.

Ltac to_spec :=
  rewrite ?is_zero_spec, ?is_finite_spec, ?is_nan_spec in *;
  rewrite ?mul_spec, ?add_spec, ?sub_spec, ?div_spec in *.

Lemma ltb_zero_shape (d : float) :
  (0 <? d) = true ->
  match Prim2SF d with
  | S754_finite false _ _ | S754_infinity false => True
  | _ => False
  end.
Proof.
  rewrite ltb_spec. change (Prim2SF 0) with (S754_zero false).
  destruct (Prim2SF d) as [s|[|]| |[|] m e]; cbn; easy.
Qed.

(** ** Addition commutes; subtracting zero changes nothing *)

Lemma SFadd_comm (x y : spec_float) : SF64add x y = SF64add y x.
Proof.
  unfold SF64add, SFadd.
  destruct x as [sx|sx| |sx mx ex], y as [sy|sy| |sy my ey];
    try destruct sx; try destruct sy; try reflexivity;
    rewrite (Z.min_comm ex ey); f_equal; apply Z.add_comm.
Qed.

Lemma add_comm (x y : float) : x + y = y + x.
Proof. apply Prim2SF_inj. rewrite !add_spec. apply SFadd_comm. Qed.

Lemma sub_zero_r (x : float) : x - 0 = x.
Proof.
  apply Prim2SF_inj. rewrite sub_spec.
  change (Prim2SF 0) with (S754_zero false).
  destruct (Prim2SF x) as [[|]|[|]| |s m e]; reflexivity.
Qed.

(** ** Rounding a canonical mantissa, shifted left, gives it back *)

Lemma iter_shr_1_shifted (p : positive) : forall m : positive,
  iter_pos shr_1 p (Build_shr_record (Zpos (Pos.iter xO m p)) false false)
  = Build_shr_record (Zpos m) false false.
Proof.
  induction p as [p IH|p IH|]; intro m; simpl.
  - now rewrite !IH.
  - now rewrite !IH.
  - reflexivity.
Qed.

Lemma digits2_pos_shifted (p : positive) : forall m : positive,
  digits2_pos (Pos.iter xO m p) = (digits2_pos m + p)%positive.
Proof.
  induction p as [p IH|p IH|]; intro m; simpl; rewrite ?IH; lia.
Qed.

Lemma Zpos_iter_xO (p m : positive) :
  Zpos (Pos.iter xO m p) = (Zpos m * 2 ^ Zpos p)%Z.
Proof.
  change (Pos.iter xO m p) with (shift_pos p m).
  rewrite shift_pos_correct, Z.pow_pos_fold. apply Z.mul_comm.
Qed.

Lemma canonical_exponent (m : positive) (e : Z) :
  bounded prec emax m e = true ->
  fexp prec emax (Zpos (digits2_pos m) + e) = e
  /\ (e <=? emax - prec)%Z = true.
Proof.
  unfold bounded, canonical_mantissa. intro H.
  apply andb_true_iff in H. destruct H as [H1 H2].
  apply Z.eqb_eq in H1. now split.
Qed.

Lemma shr_fexp_canonical (m : positive) (e : Z) :
  bounded prec emax m e = true ->
  shr_fexp prec emax (Zpos m) e loc_Exact
  = (Build_shr_record (Zpos m) false false, e).
Proof.
  intro H. destruct (canonical_exponent m e H) as [Hc _].
  unfold shr_fexp. cbn [Zdigits2 shr_record_of_loc].
  now rewrite Hc, Z.sub_diag.
Qed.

Lemma shr_fexp_shifted (m p : positive) (e : Z) :
  bounded prec emax m e = true ->
  shr_fexp prec emax (Zpos (Pos.iter xO m p)) (e - Zpos p) loc_Exact
  = (Build_shr_record (Zpos m) false false, e).
Proof.
  intro H. destruct (canonical_exponent m e H) as [Hc _].
  unfold shr_fexp. cbn [Zdigits2 shr_record_of_loc].
  rewrite digits2_pos_shifted.
  replace (Zpos (digits2_pos m + p) + (e - Zpos p))%Z
    with (Zpos (digits2_pos m) + e)%Z by lia.
  rewrite Hc.
  replace (e - (e - Zpos p))%Z with (Zpos p) by lia.
  cbn [shr]. rewrite iter_shr_1_shifted. f_equal. lia.
Qed.

Lemma round_exact_canonical (s : bool) (m : positive) (e : Z) :
  bounded prec emax m e = true ->
  binary_round_aux prec emax s (Zpos m) e loc_Exact = S754_finite s m e.
Proof.
  intro H. unfold binary_round_aux.
  rewrite (shr_fexp_canonical m e H).
  cbn [shr_m loc_of_shr_record round_nearest_even].
  rewrite (shr_fexp_canonical m e H). cbn [shr_m].
  now destruct (canonical_exponent m e H) as [_ ->].
Qed.

Lemma round_exact_shifted (s : bool) (m p : positive) (e : Z) :
  bounded prec emax m e = true ->
  binary_round_aux prec emax s (Zpos (Pos.iter xO m p)) (e - Zpos p) loc_Exact
  = S754_finite s m e.
Proof.
  intro H. unfold binary_round_aux.
  rewrite (shr_fexp_shifted m p e H).
  cbn [shr_m loc_of_shr_record round_nearest_even].
  rewrite (shr_fexp_canonical m e H). cbn [shr_m].
  now destruct (canonical_exponent m e H) as [_ ->].
Qed.

(** ** Multiplying and dividing by one are exact *)

Lemma Prim2SF_one : Prim2SF 1 = SF_one.
Proof. reflexivity. Qed.

Lemma SFmul_one_r (x : spec_float) :
  valid_binary x = true -> SF64mul x SF_one = x.
Proof.
  destruct x as [s|s| |s m e]; cbn [SF64mul SFmul SF_one valid_binary];
    rewrite ?xorb_false_r; try reflexivity.
  intro Hv.
  replace (m * 4503599627370496)%positive with (Pos.iter xO m 52).
  - apply (round_exact_shifted s m 52 e Hv).
  - apply Pos2Z.inj. rewrite Zpos_iter_xO. reflexivity.
Qed.

Lemma div_eucl_exact (q d : Z) :
  (0 < d)%Z -> Z.div_eucl (q * d) d = (q, 0%Z).
Proof.
  intro Hd. rewrite (surjective_pairing (Z.div_eucl (q * d) d)).
  change (fst (Z.div_eucl (q * d) d)) with (q * d / d)%Z.
  change (snd (Z.div_eucl (q * d) d)) with ((q * d) mod d)%Z.
  rewrite Z.div_mul, Z.mod_mul by lia. reflexivity.
Qed.

Lemma SFdiv_one_r (x : spec_float) :
  valid_binary x = true -> SF64div x SF_one = x.
Proof.
  destruct x as [s|s| |s m e]; cbn [SF64div SFdiv SF_one valid_binary];
    rewrite ?xorb_false_r; try reflexivity.
  intro Hv. destruct (canonical_exponent m e Hv) as [Hc _].
  unfold SFdiv_core_binary. cbn [Zdigits2 digits2_pos Pos.succ].
  unfold fexp, SpecFloat.emin, prec, emax in Hc |- *.
  destruct (Z.eq_dec e (-1074)) as [He|He].
  - (* subnormal exponent: the quotient is the mantissa itself *)
    replace (Z.min _ _) with e by lia.
    replace (e - -52 - e)%Z with 52%Z by lia.
    rewrite Z.shiftl_mul_pow2 by lia.
    change (2 ^ 52)%Z with 4503599627370496%Z.
    rewrite (div_eucl_exact (Zpos m) 4503599627370496) by lia.
    apply (round_exact_canonical s m e Hv).
  - (* otherwise the quotient carries one more bit, rounded away exactly *)
    replace (Z.min _ _) with (e - 1)%Z by lia.
    replace (e - -52 - (e - 1))%Z with 53%Z by lia.
    rewrite Z.shiftl_mul_pow2 by lia.
    replace (Zpos m * 2 ^ 53)%Z with (Zpos m~0 * 4503599627370496)%Z by lia.
    rewrite (div_eucl_exact (Zpos m~0) 4503599627370496) by lia.
    apply (round_exact_shifted s m 1 e Hv).
Qed.

Lemma mul_one_r (x : float) : x * 1 = x.
Proof.
  apply Prim2SF_inj. rewrite mul_spec, Prim2SF_one.
  apply SFmul_one_r, Prim2SF_valid.
Qed.

Lemma div_one_r (x : float) : x / 1 = x.
Proof.
  apply Prim2SF_inj. rewrite div_spec, Prim2SF_one.
  apply SFdiv_one_r, Prim2SF_valid.
Qed.

(** ** Arithmetic on zeros *)

Lemma zero_is_finite (x : float) : is_zero x = true -> is_finite x = true.
Proof. to_spec. now destruct (Prim2SF x). Qed.

Lemma mul_zero_finite (a x : float) :
  is_zero a = true -> is_finite x = true -> is_zero (a * x) = true.
Proof. to_spec. now destruct (Prim2SF a), (Prim2SF x). Qed.

Lemma mul_finite_zero (x a : float) :
  is_finite x = true -> is_zero a = true -> is_zero (x * a) = true.
Proof. to_spec. now destruct (Prim2SF a), (Prim2SF x). Qed.

Lemma add_zero_zero (a b : float) :
  is_zero a = true -> is_zero b = true -> is_zero (a + b) = true.
Proof.
  to_spec.
  destruct (Prim2SF a) as [[|]| | |], (Prim2SF b) as [[|]| | |]; easy.
Qed.

Lemma div_zero_pos (a d : float) :
  is_zero a = true -> (0 <? d) = true -> is_zero (a / d) = true.
Proof.
  intros Ha Hd. apply ltb_zero_shape in Hd. to_spec.
  destruct (Prim2SF a), (Prim2SF d) as [|[|]| |[|] ? ?]; easy.
Qed.

Lemma add_zero_pos_zero (a : float) : is_zero a = true -> a + 0 = 0.
Proof.
  intro Ha. apply Prim2SF_inj. to_spec.
  change (Prim2SF 0) with (S754_zero false).
  destruct (Prim2SF a) as [[|]| | |]; easy.
Qed.

Lemma sub_diag_finite (x : float) :
  is_finite x = true -> is_zero (x - x) = true.
Proof.
  to_spec. destruct (Prim2SF x) as [[|]|[|]| |s m e]; try easy.
  intros _. cbn [SF64sub SFsub]. now rewrite Z.sub_diag.
Qed.

(** Once an accumulator has left the finite values, no addition brings
    it back. *)
Lemma add_finite_inv (x c : float) :
  is_finite (x + c) = true -> is_finite x = true.
Proof.
  to_spec.
  destruct (Prim2SF x) as [s|[|]| |s m e],
    (Prim2SF c) as [s'|[|]| |s' m' e']; easy.
Qed.

Lemma add_pos_zero_zero (a : float) : is_zero a = true -> 0 + a = 0.
Proof. intro Ha. rewrite add_comm. now apply add_zero_pos_zero. Qed.

(** ** Below zero is below one *)

Lemma ltb_zero_ltb_one (x : float) : (x <? 0) = true -> (x <? 1) = true.
Proof.
  rewrite !ltb_spec, Prim2SF_one.
  change (Prim2SF 0) with (S754_zero false).
  unfold SFltb, SF_one.
  destruct (Prim2SF x) as [s|[|]| |[|] m e]; cbn [SFcompare];
    intro H; try discriminate H; reflexivity.
Qed.

(** ** A square root is never negative *)

Lemma round_false_nonneg (m e : Z) (l : location) :
  SF_nonneg_or_nan (binary_round_aux prec emax false m e l) = true.
Proof.
  unfold binary_round_aux.
  destruct (shr_fexp prec emax m e l) as [mrs' e'].
  destruct (shr_fexp _ _ _ _ _) as [mrs'' e''].
  destruct (shr_m mrs''); try reflexivity.
  now destruct (_ <=? _)%Z.
Qed.

Lemma SFsqrt_nonneg (x : spec_float) : SF_nonneg_or_nan (SF64sqrt x) = true.
Proof.
  destruct x as [s|[|]| |[|] m e]; try reflexivity.
  cbn [SF64sqrt SFsqrt].
  destruct (SFsqrt_core_binary prec emax (Zpos m) e) as [[mz ez] lz].
  apply round_false_nonneg.
Qed.

Lemma sqrt_nonneg (x : float) :
  is_nan (sqrt x) = true \/ (0 <=? sqrt x) = true.
Proof.
  rewrite is_nan_spec, leb_spec, sqrt_spec.
  change (Prim2SF 0) with (S754_zero false).
  pose proof (SFsqrt_nonneg (Prim2SF x)) as H.
  destruct (SF64sqrt (Prim2SF x)) as [s|[|]| |[|] m e];
    cbn in *; auto; discriminate.
Qed.

(** ** Operations that keep a value non-negative *)

Lemma leb_zero_spec (x : float) : (0 <=? x) = SF_nonneg (Prim2SF x).
Proof.
  rewrite leb_spec. change (Prim2SF 0) with (S754_zero false).
  destruct (Prim2SF x) as [s|[|]| |[|] m e]; reflexivity.
Qed.

Lemma shr_1_nonneg (r : shr_record) :
  (0 <= shr_m r)%Z -> (0 <= shr_m (shr_1 r))%Z.
Proof.
  destruct r as [m r s]. destruct m as [|[p|p|]|p]; cbn; lia.
Qed.

Lemma iter_pos_invariant {A : Type} (Inv : A -> Prop) (f : A -> A) :
  (forall x, Inv x -> Inv (f x)) ->
  forall (p : positive) (x : A), Inv x -> Inv (iter_pos f p x).
Proof.
  intros Hf. induction p as [p IH|p IH|]; intros x Hx; cbn; auto.
Qed.

Lemma shr_fexp_nonneg (m e : Z) (l : location) :
  (0 <= m)%Z -> (0 <= shr_m (fst (shr_fexp prec emax m e l)))%Z.
Proof.
  intro Hm. unfold shr_fexp, shr.
  assert (H0 : (0 <= shr_m (shr_record_of_loc m l))%Z)
    by (destruct l as [|[| |]]; exact Hm).
  destruct (fexp prec emax (Zdigits2 m + e) - e)%Z as [|p|p]; cbn [fst];
    try exact H0.
  now apply (iter_pos_invariant (fun r => (0 <= shr_m r)%Z) shr_1 shr_1_nonneg).
Qed.

Lemma round_nearest_even_nonneg (m : Z) (l : location) :
  (0 <= m)%Z -> (0 <= round_nearest_even m l)%Z.
Proof.
  intro Hm. destruct l as [|[| |]]; cbn; try destruct (Z.even m); lia.
Qed.

Lemma round_nonneg (m e : Z) (l : location) :
  (0 <= m)%Z -> SF_nonneg (binary_round_aux prec emax false m e l) = true.
Proof.
  intro Hm. unfold binary_round_aux.
  pose proof (shr_fexp_nonneg m e l Hm) as H1.
  destruct (shr_fexp prec emax m e l) as [mrs' e']. cbn [fst] in H1.
  pose proof (round_nearest_even_nonneg _ (loc_of_shr_record mrs') H1)
    as Hr.
  pose proof (shr_fexp_nonneg _ e' loc_Exact Hr) as H2.
  destruct (shr_fexp _ _ _ _ _) as [mrs'' e'']. cbn [fst] in H2.
  destruct (shr_m mrs''); [reflexivity| |lia].
  now destruct (_ <=? _)%Z.
Qed.

Lemma binary_round_nonneg (m : positive) (e : Z) :
  SF_nonneg (binary_round prec emax false m e) = true.
Proof.
  unfold binary_round. destruct (shl_align _ _ _) as [mz ez].
  apply round_nonneg. lia.
Qed.

Lemma SFadd_nonneg (x y : spec_float) :
  SF_nonneg x = true -> SF_nonneg y = true -> SF_nonneg (SF64add x y) = true.
Proof.
  destruct x as [sx|[|]| |[|] mx ex], y as [sy|[|]| |[|] my ey];
    try discriminate; try reflexivity; intros _ _.
  - now destruct sx, sy.
  - cbn [SF64add SFadd cond_Zopp].
    destruct (shl_align mx ex _) as [a ?], (shl_align my ey _) as [b ?].
    cbn [fst Z.add binary_normalize]. apply binary_round_nonneg.
Qed.

Lemma SFmul_self_nonneg (x : spec_float) :
  SF_nan x = false -> SF_nonneg (SF64mul x x) = true.
Proof.
  destruct x as [s|s| |s m e]; try discriminate; intros _;
    cbn [SF64mul SFmul]; rewrite xorb_nilpotent; try reflexivity.
  apply round_nonneg. lia.
Qed.

Lemma SFmul_one_l_nonneg (x : spec_float) :
  SF_nonneg x = true -> SF_nonneg (SF64mul SF_one x) = true.
Proof.
  destruct x as [s|[|]| |[|] m e]; try discriminate; try reflexivity; intros _.
  cbn [SF64mul SFmul SF_one xorb]. apply round_nonneg. lia.
Qed.

Lemma SFldexp_nonneg (x : spec_float) (e : Z) :
  SF_nonneg x = true -> SF_nonneg (SFldexp prec emax x e) = true.
Proof.
  destruct x as [s|[|]| |[|] m ex]; try discriminate; try reflexivity; intros _.
  cbn [SFldexp]. apply binary_round_nonneg.
Qed.

Lemma SFsqrt_of_nonneg (x : spec_float) :
  SF_nonneg x = true -> SF_nonneg (SF64sqrt x) = true.
Proof.
  destruct x as [s|[|]| |[|] m e]; try discriminate; try reflexivity; intros _.
  cbn [SF64sqrt SFsqrt]. unfold SFsqrt_core_binary.
  set (m' := match _ with Z0 => _ | Zpos _ => _ | Zneg _ => _ end).
  pose proof (Z.sqrtrem_sqrt m') as Hq. pose proof (Z.sqrt_nonneg m') as Hn.
  destruct (Z.sqrtrem m') as [q r]. cbn [fst] in Hq.
  apply round_nonneg. lia.
Qed.

Lemma SFfrexp_not_nan (x : spec_float) :
  SF_nan x = false -> SF_nan (fst (SFfrexp prec emax x)) = false.
Proof.
  destruct x as [s|s| |s m e]; try discriminate; try reflexivity; intros _.
  cbn [SFfrexp]. now destruct (_ <=? _)%Z.
Qed.


Lemma add_nonneg (a b : float) :
  (0 <=? a) = true -> (0 <=? b) = true -> (0 <=? a + b) = true.
Proof. rewrite !leb_zero_spec, add_spec. apply SFadd_nonneg. Qed.

Lemma mul_self_nonneg (x : float) :
  is_nan x = false -> (0 <=? x * x) = true.
Proof.
  rewrite is_nan_spec, leb_zero_spec, mul_spec. apply SFmul_self_nonneg.
Qed.

Lemma one_mul_nonneg (x : float) :
  (0 <=? x) = true -> (0 <=? 1 * x) = true.
Proof.
  rewrite !leb_zero_spec, mul_spec, Prim2SF_one.
  apply SFmul_one_l_nonneg.
Qed.

Lemma ldexp_nonneg (x : float) (e : Z) :
  (0 <=? x) = true -> (0 <=? Z.ldexp x e) = true.
Proof. rewrite !leb_zero_spec, Z_ldexp_spec. apply SFldexp_nonneg. Qed.

Lemma frexp_not_nan (x : float) :
  is_nan x = false -> is_nan (fst (Z.frexp x)) = false.
Proof.
  rewrite !is_nan_spec. intro H.
  pose proof (Z_frexp_spec x) as Hf.
  destruct (Z.frexp x) as [m e]. cbn [fst].
  apply (f_equal fst) in Hf. cbn [fst] in Hf. rewrite Hf.
  now apply SFfrexp_not_nan.
Qed.

Lemma sqrt_nonneg_of_nonneg (x : float) :
  (0 <=? x) = true -> (0 <=? sqrt x) = true.
Proof. rewrite !leb_zero_spec, sqrt_spec. apply SFsqrt_of_nonneg. Qed.

(** ** The integer part of a value below one *)

Lemma digits2_pos_bound (m : positive) :
  (Zpos m < 2 ^ Zpos (digits2_pos m))%Z.
Proof.
  induction m as [m IH|m IH|]; cbn [digits2_pos].
  - rewrite Pos2Z.inj_succ, Z.pow_succ_r by lia. lia.
  - rewrite Pos2Z.inj_succ, Z.pow_succ_r by lia. lia.
  - reflexivity.
Qed.

Lemma canonical_digits (m : positive) (e : Z) :
  bounded prec emax m e = true -> (Zpos (digits2_pos m) <= 53)%Z.
Proof.
  unfold bounded, canonical_mantissa, fexp, SpecFloat.emin, prec, emax.
  intro H. apply andb_true_iff in H. destruct H as [H _].
  apply Z.eqb_eq in H. lia.
Qed.

Lemma shiftl_small (m : positive) (e : Z) :
  (Zpos m < 2 ^ (- e))%Z -> (e < 0)%Z -> Z.shiftl (Zpos m) e = 0%Z.
Proof.
  intros Hm He. rewrite Z.shiftl_div_pow2 by lia.
  apply Z.div_small. lia.
Qed.

(** ** Zero and NaN operands *)

Lemma add_zero_l_eqb (z y : float) :
  is_zero z = true -> is_finite y = true -> (z + y =? y) = true.
Proof.
  rewrite eqb_spec. to_spec. unfold SFeqb.
  destruct (Prim2SF z) as [sz|sz| |sz mz ez]; intro Hz; try discriminate Hz.
  destruct (Prim2SF y) as [sy|sy| |sy my ey]; intro Hy; try discriminate Hy.
  - now destruct sz, sy.
  - unfold SF64add, SFadd. now rewrite SFcompare_refl_finite.
Qed.

Lemma sub_zero_eqb (x z : float) :
  is_zero z = true -> is_nan x = false -> (x - z =? x) = true.
Proof.
  rewrite eqb_spec. to_spec. unfold SFeqb.
  destruct (Prim2SF z) as [sz|sz| |sz mz ez]; intro Hz; try discriminate Hz.
  destruct (Prim2SF x) as [sx|sx| |sx mx ex]; intro Hx; try discriminate Hx.
  - now destruct sz, sx.
  - now destruct sx.
  - unfold SF64sub, SFsub. now rewrite SFcompare_refl_finite.
Qed.

Lemma div_zero_nonzero (a d : float) :
  is_zero a = true -> is_zero d = false -> is_nan d = false ->
  is_zero (a / d) = true.
Proof.
  to_spec. now destruct (Prim2SF a), (Prim2SF d).
Qed.

(** A division by zero gives NaN or an infinity. *)
Lemma div_by_zero_shape (x z : float) :
  is_zero z = true ->
  x / z = nan \/ x / z = infinity \/ x / z = neg_infinity.
Proof.
  intro Hz. rewrite is_zero_spec in Hz.
  assert (H : Prim2SF (x / z) = S754_nan
              \/ Prim2SF (x / z) = S754_infinity false
              \/ Prim2SF (x / z) = S754_infinity true).
  { rewrite div_spec.
    destruct (Prim2SF z) as [sz|sz| |sz mz ez]; try discriminate Hz.
    destruct (Prim2SF x) as [sx|sx| |sx mx ex]; cbn [SF64div SFdiv];
      auto; destruct (xorb sx sz); auto. }
  destruct H as [H|[H|H]]; [left|right; left|right; right];
    apply Prim2SF_inj; rewrite H; reflexivity.
Qed.

Lemma add_nan_r (x : float) : x + nan = nan.
Proof.
  apply Prim2SF_inj. rewrite add_spec.
  change (Prim2SF nan) with S754_nan.
  now destruct (Prim2SF x).
Qed.

Lemma sub_nan_r (x : float) : x - nan = nan.
Proof.
  apply Prim2SF_inj. rewrite sub_spec.
  change (Prim2SF nan) with S754_nan.
  now destruct (Prim2SF x).
Qed.

End F64.

(** * Facts about Go's conversions and loops *)

Module GoFacts.

Import Binary64.

Lemma int_cases (x : float) :
  Go.int x = Go.min_int64
  \/ exists z, Go.trunc x = Some z /\ Go.int x = z.
Proof.
  unfold Go.int. destruct (Go.trunc x) as [z|]; [|now left].
  destruct (_ && _)%bool; [right; now exists z | now left].
Qed.

(** A positive value below one: its exponent and mantissa. *)
Lemma SFltb_one_shape (m : positive) (e : Z) :
  SFltb (S754_finite false m e) SF_one = true ->
  (e < -52)%Z \/ (e = -52 /\ Zpos m < 2 ^ 52)%Z.
Proof.
  unfold SFltb, SF_one. cbn [SFcompare]. intro Hlt.
  destruct (Z.compare_spec e (-52)) as [He|He|He];
    [right | now left | discriminate Hlt].
  destruct (Pos.compare_cont Eq m 4503599627370496) eqn:Hc;
    [discriminate Hlt | | discriminate Hlt].
  split; [exact He|]. apply Pos2Z.pos_lt_pos. exact Hc.
Qed.

(** A value below one has no positive integer part. *)
Lemma trunc_lt_one (x : float) (z : Z) :
  (x <? 1) = true -> Go.trunc x = Some z -> (z <= 0)%Z.
Proof.
  rewrite ltb_spec, F64.Prim2SF_one. unfold Go.trunc.
  pose proof (Prim2SF_valid x) as Hv.
  destruct (Prim2SF x) as [s|s| |s m e]; try discriminate.
  - intros _ [= <-]. lia.
  - cbn [valid_binary] in Hv.
    pose proof (F64.canonical_digits m e Hv) as Hd.
    pose proof (F64.digits2_pos_bound m) as Hm.
    assert (Hp : (2 ^ Zpos (digits2_pos m) <= 2 ^ 53)%Z)
      by (apply Z.pow_le_mono_r; lia).
    destruct s; intros Hlt [= <-]; cbn [cond_Zopp].
    + pose proof (Z.shiftl_nonneg (Zpos m) e). lia.
    + destruct (SFltb_one_shape m e Hlt) as [He|[-> Hc]].
      * rewrite F64.shiftl_small; [lia| |lia].
        assert (2 ^ 53 <= 2 ^ (- e))%Z by (apply Z.pow_le_mono_r; lia). lia.
      * rewrite F64.shiftl_small; [lia|exact Hc|lia].
Qed.

Lemma int_lt_one (x : float) : (x <? 1) = true -> (Go.int x <= 0)%Z.
Proof.
  intro H. destruct (int_cases x) as [->|[z [Hz ->]]].
  - unfold Go.min_int64. lia.
  - exact (trunc_lt_one x z H Hz).
Qed.

(** [Go.trunc] rounds toward zero: the result carries the sign of the
    value, and its magnitude is the integer part of the magnitude
    [m * 2^e]. *)
Lemma trunc_toward_zero (x : float) (s : bool) (m : positive) (e z : Z) :
  Prim2SF x = S754_finite s m e ->
  Go.trunc x = Some z ->
  z = cond_Zopp s (Z.abs z)
  /\ (0 <= e -> Z.abs z = Zpos m * 2 ^ e)%Z
  /\ (e < 0 -> Z.abs z = Zpos m / 2 ^ (- e))%Z.
Proof.
  intros Hx. unfold Go.trunc. rewrite Hx. intros [= <-].
  pose proof (Z.shiftl_nonneg (Zpos m) e) as Hnn.
  assert (Habs : Z.abs (cond_Zopp s (Z.shiftl (Zpos m) e))
                 = Z.shiftl (Zpos m) e)
    by (destruct s; cbn [cond_Zopp]; lia).
  rewrite Habs. repeat split.
  - intro He. now apply Z.shiftl_mul_pow2.
  - intro He. apply Z.shiftl_div_pow2. lia.
Qed.

Example int_discards_the_fraction :
  Go.int 2.9 = 2%Z /\ Go.int (-2.9) = (-2)%Z
  /\ Go.int 0.5 = 0%Z /\ Go.int (-0.5) = 0%Z /\ Go.int 1000 = 1000%Z.
Proof. vm_compute. repeat split. Qed.

Lemma for_le_1_nonpos {S : Type} (n : Z) (body : S -> S) (s : S) :
  (n <= 0)%Z -> Go.for_le 1 n body s = s.
Proof.
  intro H. unfold Go.for_le. now replace (Z.to_nat (n - 1 + 1)) with O by lia.
Qed.

Lemma for_le_1_iter {S : Type} (n : Z) (body : S -> S) (s : S) :
  Go.for_le 1 n body s = Nat.iter (Z.to_nat n) body s.
Proof. unfold Go.for_le. now replace (n - 1 + 1)%Z with n by lia. Qed.

Lemma last_elem_app (l : list float) (x : float) :
  Go.last_elem (l ++ [x]) = x.
Proof. unfold Go.last_elem. apply last_last. Qed.

End GoFacts.

(** * The conversion [int(N)] against truncation toward zero *)

Module SpecFacts.

(** On a fraction, truncation toward zero is the quotient [Z.quot]. *)
Lemma truncate_quot (n : Z) (d : positive) :
  Spec.truncate (QArith_base.Qmake n d) = Z.quot n (Zpos d).
Proof.
  unfold Spec.truncate, QArith_base.Qle_bool, Qround.Qceiling, Qround.Qfloor.
  cbn [QArith_base.Qnum QArith_base.Qden QArith_base.inject_Z
       QArith_base.Qopp].
  rewrite Z.mul_0_l, Z.mul_1_r.
  destruct (Z.leb_spec 0 n) as [H|H].
  - symmetry. apply Z.quot_div_nonneg; lia.
  - rewrite <- (Z.opp_involutive n) at 2.
    rewrite Z.quot_opp_l by lia. f_equal. symmetry.
    apply Z.quot_div_nonneg; lia.
Qed.



Lemma pos_pow_1_l (p : positive) : (1 ^ p)%positive = 1%positive.
Proof.
  apply Pos2Z.inj. rewrite Pos2Z.inj_pow. apply Z.pow_1_l. lia.
Qed.

(** The number of a finite value, as a fraction. *)
Lemma value_finite (s : bool) (m : positive) (e : Z) :
  QArith_base.Qmult (QArith_base.inject_Z (cond_Zopp s (Zpos m)))
    (QArith_base.Qpower (QArith_base.inject_Z 2) e)
  = match e with
    | Z0 => QArith_base.Qmake (cond_Zopp s (Zpos m) * 1) 1
    | Zpos p => QArith_base.Qmake (cond_Zopp s (Zpos m) * 2 ^ Zpos p) 1
    | Zneg p => QArith_base.Qmake (cond_Zopp s (Zpos m) * 1) (2 ^ p)
    end.
Proof.
  destruct e as [|p|p]; cbn [QArith_base.Qpower].
  - reflexivity.
  - unfold QArith_base.inject_Z.
    rewrite Qpower.Qpower_decomp_positive, pos_pow_1_l. reflexivity.
  - unfold QArith_base.inject_Z.
    rewrite Qpower.Qpower_decomp_positive, pos_pow_1_l.
    rewrite <- Pos2Z.inj_pow. reflexivity.
Qed.

(** The conversion of the code computes the integer part of the number:
    it truncates toward zero. *)
Lemma trunc_is_integer_part (x : float) :
  Go.trunc x = Spec.integer_part x.
Proof.
  unfold Go.trunc, Spec.integer_part, Spec.value.
  destruct (Prim2SF x) as [s|s| |s m e]; try reflexivity.
  f_equal. rewrite value_finite.
  destruct e as [|p|p]; rewrite truncate_quot.
  - rewrite Z.quot_1_r, Z.mul_1_r. reflexivity.
  - rewrite Z.quot_1_r, Z.shiftl_mul_pow2 by lia.
    destruct s; cbn [cond_Zopp]; lia.
  - rewrite Z.mul_1_r, Z.shiftl_div_pow2 by lia.
    rewrite Pos2Z.inj_pow. change (- Z.neg p)%Z with (Z.pos p).
    destruct s; cbn [cond_Zopp].
    + rewrite Z.quot_opp_l by lia. f_equal. symmetry.
      apply Z.quot_div_nonneg; lia.
    + symmetry. apply Z.quot_div_nonneg; lia.
Qed.


(** Inside the range of [int], [int(x)] is the integer part of [x]. *)
Lemma int_integer_part (x : float) (z : Z) :
  Spec.integer_part x = Some z ->
  (Go.min_int64 <= z <= Go.max_int64)%Z ->
  Go.int x = z.
Proof.
  rewrite <- trunc_is_integer_part. intros Hz Hrange.
  unfold Go.int. rewrite Hz.
  destruct (Z.leb_spec Go.min_int64 z), (Z.leb_spec z Go.max_int64);
    cbn [andb]; lia.
Qed.

Example integer_part_discards_the_fraction :
  Spec.integer_part 2.9 = Some 2%Z /\ Spec.integer_part (-2.9) = Some (-2)%Z
  /\ Spec.integer_part 0.5 = Some 0%Z /\ Spec.integer_part 1000 = Some 1000%Z
  /\ Spec.integer_part infinity = None.
Proof. vm_compute. repeat split. Qed.

End SpecFacts.

(** * Facts about the model of [math.Pow] *)

Module MathFacts.

(** The square of a number is not negative. *)
Lemma Pow_2_nonneg (x : float) :
  is_nan x = false -> (0 <=? math.Pow_2 x) = true.
Proof.
  intro Hx. unfold math.Pow_2. rewrite Hx.
  destruct (x =? 1); [reflexivity|].
  destruct (x =? 0); [reflexivity|].
  destruct (is_infinity x); [reflexivity|].
  pose proof (F64.frexp_not_nan x Hx) as Hm.
  destruct (Z.frexp x) as [x1 xe]. cbn [fst] in Hm.
  pose proof (F64.mul_self_nonneg x1 Hm) as Hsq.
  destruct (x1 * x1 <? 0.5).
  - apply F64.ldexp_nonneg, F64.one_mul_nonneg. now apply F64.add_nonneg.
  - now apply F64.ldexp_nonneg, F64.one_mul_nonneg.
Qed.

Lemma Pow_square_nonneg (x : float) :
  is_nan x = false -> (0 <=? math.Pow x 2) = true.
Proof. apply Pow_2_nonneg. Qed.

End MathFacts.

(** * The controller *)

Module ControllerFacts.

Import Controllers.

(** ** One call of [simulation.Compute] *)

(** C1.  A call [pid.Compute(setpoint, currentValue, dt)] of the dt-scaled
    controller returns [Kp*e + Ki*(integral + e*dt) + Kd*(e - previous)/dt]
    with [e = setpoint - currentValue], leaves [integral + e*dt] in the
    integral and [e] in the previous error, and keeps the gains.  This holds
    for every [dt], so for every [dt > 0], and whatever [Kd] is: the
    previous error is overwritten also when [Kd = 0]. *)
Theorem Compute_formula (pid : simulation.PID)
  (setpoint currentValue dt : float) :
  let e := setpoint - currentValue in
  let out := fst (simulation.Compute pid setpoint currentValue dt) in
  let pid' := snd (simulation.Compute pid setpoint currentValue dt) in
  out = simulation.Kp pid * e
        + simulation.Ki pid * (simulation.integral pid + e * dt)
        + simulation.Kd pid * (e - simulation.previouserror_pid pid) / dt
  /\ simulation.integral pid' = simulation.integral pid + e * dt
  /\ simulation.previouserror_pid pid' = e
  /\ simulation.Kp pid' = simulation.Kp pid
  /\ simulation.Ki pid' = simulation.Ki pid
  /\ simulation.Kd pid' = simulation.Kd pid.
Proof.
  destruct pid as [kp ki kd i p].
  unfold simulation.Compute, simulation.set_previouserror_pid,
    simulation.set_integral.
  cbn [fst snd simulation.Kp simulation.Ki simulation.Kd
       simulation.integral simulation.previouserror_pid].
  repeat split.
Qed.

Lemma Compute_state (pid : simulation.PID)
  (setpoint currentValue dt : float) :
  snd (simulation.Compute pid setpoint currentValue dt)
  = simulation.mkPID (simulation.Kp pid) (simulation.Ki pid)
      (simulation.Kd pid)
      (simulation.integral pid + (setpoint - currentValue) * dt)
      (setpoint - currentValue).
Proof. reflexivity. Qed.

(** ** The controller without dt is the controller at [dt = 1] *)

Lemma Compute_dt_one (pid : main.PID) (setpoint currentValue : float) :
  simulation.Compute (to_simulation pid) setpoint currentValue 1
  = (fst (main.Compute pid setpoint currentValue),
     to_simulation (snd (main.Compute pid setpoint currentValue))).
Proof.
  destruct pid as [kp ki kd i p].
  unfold simulation.Compute, main.Compute, to_simulation,
    simulation.set_previouserror_pid, simulation.set_integral,
    main.set_previouserror_pid, main.set_integral.
  cbn [fst snd simulation.Kp simulation.Ki simulation.Kd
       simulation.integral simulation.previouserror_pid
       main.Kp main.Ki main.Kd main.integral main.previouserror_pid].
  now rewrite F64.mul_one_r, F64.div_one_r.
Qed.

(** C5.  From equal gains and equal state, any sequence of calls
    [Compute(setpoint, currentValue)] on the controller of package [main]
    returns the same outputs, and ends in the same state, as the calls
    [Compute(setpoint, currentValue, 1)] on the controller of package
    [simulation]. *)
Theorem Compute_without_dt_is_dt_one (pid : main.PID)
  (calls : list (float * float)) :
  simulation_calls (to_simulation pid) 1 calls
  = (fst (main_calls pid calls), to_simulation (snd (main_calls pid calls))).
Proof.
  revert pid. induction calls as [|[setpoint currentValue] rest IH];
    intro pid; cbn [simulation_calls main_calls].
  - reflexivity.
  - rewrite Compute_dt_one.
    destruct (main.Compute pid setpoint currentValue) as [out pid1].
    cbn [fst snd]. rewrite IH.
    now destruct (main_calls pid1 rest) as [outs pid2].
Qed.

End ControllerFacts.

(** * The first-order lag plant *)

Module PlantFacts.

(** C3.  [DynamicResponse] returns [yn + (dt/Tau) * (K*un - yn)], the
    forward Euler step of [Tau * dy/dt = K*u - y]; this holds for every
    [Tau], so for every [Tau <> 0]. *)
Theorem DynamicResponse_euler (un yn dt Tau K : float) :
  simulation.DynamicResponse un yn dt Tau K
  = yn + (dt / Tau) * (K * un - yn).
Proof. unfold simulation.DynamicResponse. apply F64.add_comm. Qed.

End PlantFacts.

(** * The time-stepping drivers *)

Module DriverFacts.

Import Trajectory.

(** ** Slices that grow by one sample *)

Lemma last_elem_nth (l : list float) :
  l <> [] -> Go.last_elem l = nth (length l - 1) l 0.
Proof.
  intro H. destruct (exists_last H) as [l' [x ->]].
  rewrite GoFacts.last_elem_app, length_app, Nat.add_sub. cbn [length].
  now rewrite nth_middle.
Qed.

Lemma spaced_snoc (dt : float) (t : list float) :
  t <> [] -> spaced dt t -> spaced dt (t ++ [Go.last_elem t + dt]).
Proof.
  intros Hne Hs k Hk. rewrite length_app in Hk. cbn [length] in Hk.
  destruct (Nat.eq_dec k (length t)) as [->|Hneq].
  - rewrite nth_middle, app_nth1 by (destruct t; [easy|cbn [length]; lia]).
    now rewrite last_elem_nth.
  - rewrite !app_nth1 by lia. apply Hs. lia.
Qed.

Lemma spaced_singleton (dt x : float) : spaced dt [x].
Proof. intros k Hk. cbn [length] in Hk. lia. Qed.

Lemma nth_0_snoc (l : list float) (x : float) :
  l <> [] -> nth 0 (l ++ [x]) 0 = nth 0 l 0.
Proof. now destruct l. Qed.

Lemma length_not_nil (l : list float) (n : nat) :
  length l = S n -> l <> [].
Proof. now destruct l. Qed.

Lemma last_elem_repeat (n : nat) : Go.last_elem (repeat 0 (S n)) = 0.
Proof.
  rewrite last_elem_nth by discriminate. now rewrite nth_repeat.
Qed.

Lemma repeat_snoc (n : nat) :
  repeat 0%float (S n) ++ [0] = repeat 0%float (S (S n)).
Proof.
  change [0] with (repeat 0%float 1).
  rewrite <- repeat_app. f_equal. lia.
Qed.

(** ** The loop of [simulation.Simulation] *)

Lemma loop_body_T (Sp Tau K dt : float) (s : simulation.loop_state) :
  simulation.T (simulation.loop_body Sp Tau K dt s)
  = simulation.T s ++ [Go.last_elem (simulation.T s) + dt].
Proof.
  unfold simulation.loop_body.
  now destruct (simulation.Compute _ _ _ _).
Qed.

Lemma loop_body_measure (Sp Tau K dt : float) (s : simulation.loop_state) :
  simulation.measure (simulation.loop_body Sp Tau K dt s)
  = simulation.measure s
    ++ [simulation.DynamicResponse
          (fst (simulation.Compute (simulation.pid s) Sp
                  (Go.last_elem (simulation.measure s)) dt))
          (Go.last_elem (simulation.measure s)) dt Tau K].
Proof.
  unfold simulation.loop_body.
  now destruct (simulation.Compute _ _ _ _).
Qed.

Lemma loop_body_pid (Sp Tau K dt : float) (s : simulation.loop_state) :
  simulation.pid (simulation.loop_body Sp Tau K dt s)
  = snd (simulation.Compute (simulation.pid s) Sp
           (Go.last_elem (simulation.measure s)) dt).
Proof.
  unfold simulation.loop_body.
  now destruct (simulation.Compute _ _ _ _).
Qed.

(** What [n] iterations of the loop have built. *)
Lemma loop_shape (Sp Tau K P Ki Kd dt : float) (n : nat) :
  let s := Nat.iter n (simulation.loop_body Sp Tau K dt)
             (simulation.loop_init P Ki Kd) in
  length (simulation.T s) = S n
  /\ length (simulation.measure s) = S n
  /\ nth 0 (simulation.T s) 0 = 0
  /\ nth 0 (simulation.measure s) 0 = 0
  /\ spaced dt (simulation.T s).
Proof.
  induction n as [|n IH].
  - cbn. repeat split. apply spaced_singleton.
  - cbn zeta in IH |- *. destruct IH as (HT & Hm & HT0 & Hm0 & Hsp).
    rewrite Nat.iter_succ.
    set (s := Nat.iter n _ _) in *.
    rewrite loop_body_T, loop_body_measure.
    pose proof (length_not_nil _ _ HT) as HTne.
    pose proof (length_not_nil _ _ Hm) as Hmne.
    rewrite !length_app, !nth_0_snoc by assumption. cbn [length].
    repeat split; try lia; try assumption.
    now apply spaced_snoc.
Qed.

Lemma Simulation_shape (Sp Tau K P Ki Kd dt N : float) :
  let T := fst (simulation.Simulation Sp Tau K P Ki Kd dt N) in
  let measure := snd (simulation.Simulation Sp Tau K P Ki Kd dt N) in
  length T = S (Z.to_nat (Go.int N))
  /\ length measure = S (Z.to_nat (Go.int N))
  /\ nth 0 T 0 = 0
  /\ nth 0 measure 0 = 0
  /\ spaced dt T.
Proof.
  unfold simulation.Simulation, simulation.Simulation_loop. cbn [fst snd].
  rewrite GoFacts.for_le_1_iter. apply loop_shape.
Qed.

(** An iteration count below one leaves the initial sample alone. *)
Lemma Simulation_lt_one (Sp Tau K P Ki Kd dt N : float) :
  (N <? 1) = true ->
  simulation.Simulation Sp Tau K P Ki Kd dt N = ([0], [0]).
Proof.
  intro H. unfold simulation.Simulation, simulation.Simulation_loop.
  now rewrite GoFacts.for_le_1_nonpos by (now apply GoFacts.int_lt_one).
Qed.

(** The number of samples, from the integer part of [N]. *)
Lemma Simulation_count (Sp Tau K P Ki Kd dt N : float) (z : Z) :
  Spec.integer_part N = Some z ->
  (0 <= z <= Go.max_int64)%Z ->
  Go.int N = z
  /\ length (fst (simulation.Simulation Sp Tau K P Ki Kd dt N))
     = S (Z.to_nat z)
  /\ length (snd (simulation.Simulation Sp Tau K P Ki Kd dt N))
     = S (Z.to_nat z).
Proof.
  intros Hz Hrange.
  assert (Hint : Go.int N = z).
  { apply SpecFacts.int_integer_part; [exact Hz|].
    unfold Go.min_int64. lia. }
  destruct (Simulation_shape Sp Tau K P Ki Kd dt N) as (HT & Hm & _).
  cbn zeta in HT, Hm. rewrite Hint in HT, Hm. now repeat split.
Qed.

(** ** The closed loop of [main] *)

Section ClosedLoop.

Variable Pow : float -> float -> float.

Lemma main_loop_body_fields (QPoc_ref Pond dt : float)
  (s : main.loop_state) :
  let s' := main.loop_body Pow QPoc_ref Pond dt s in
  main.T s' = main.T s ++ [Go.last_elem (main.T s) + dt]
  /\ (exists u, main.Qond s' = main.Qond s ++ [u])
  /\ (exists q, main.QPoc s' = main.QPoc s ++ [q]).
Proof.
  unfold main.loop_body. destruct (main.Compute _ _ _) as [u pid'].
  cbn. eauto.
Qed.

Lemma main_loop_shape (QPoc_ref Pond kp ki kd dt : float) (n : nat) :
  let s := Nat.iter n (main.loop_body Pow QPoc_ref Pond dt)
             (main.mkLoop [main.Simulation Pow Pond 0] [0]
                (main.NewPID kp ki kd) [0]) in
  length (main.T s) = S n
  /\ length (main.QPoc s) = S n
  /\ length (main.Qond s) = S n
  /\ nth 0 (main.T s) 0 = 0
  /\ nth 0 (main.QPoc s) 0 = main.Simulation Pow Pond 0
  /\ nth 0 (main.Qond s) 0 = 0
  /\ spaced dt (main.T s).
Proof.
  induction n as [|n IH].
  - cbn. repeat split. apply spaced_singleton.
  - cbn zeta in IH |- *.
    destruct IH as (HT & HQ & Hq & HT0 & HQ0 & Hq0 & Hsp).
    rewrite Nat.iter_succ.
    set (s := Nat.iter n _ _) in *.
    destruct (main_loop_body_fields QPoc_ref Pond dt s)
      as (-> & [u ->] & [q ->]).
    pose proof (length_not_nil _ _ HT) as HTne.
    pose proof (length_not_nil _ _ HQ) as HQne.
    pose proof (length_not_nil _ _ Hq) as Hqne.
    rewrite !length_app, !nth_0_snoc by assumption. cbn [length].
    repeat split; try lia; try assumption.
    now apply spaced_snoc.
Qed.

Lemma closed_loop_shape (QPoc_ref Pond kp ki kd : float)
  (numIterations : Z) (dt : float) :
  let s := main.closed_loop Pow QPoc_ref Pond kp ki kd numIterations dt in
  length (main.T s) = S (Z.to_nat (numIterations - 1))
  /\ length (main.QPoc s) = S (Z.to_nat (numIterations - 1))
  /\ length (main.Qond s) = S (Z.to_nat (numIterations - 1))
  /\ nth 0 (main.T s) 0 = 0
  /\ nth 0 (main.QPoc s) 0 = main.Simulation Pow Pond 0
  /\ nth 0 (main.Qond s) 0 = 0
  /\ spaced dt (main.T s).
Proof. unfold main.closed_loop, Go.for_lt. apply main_loop_shape. Qed.

End ClosedLoop.

(** ** How many samples the drivers return *)



(** The step response the repository demonstrates: 1000 steps of 1 ms. *)
Example Simulation_demonstration :
  length (fst (simulation.Simulation 10 1 1 5 10 0 0.001 1000)) = 1001%nat
  /\ length (snd (simulation.Simulation 10 1 1 5 10 0 0.001 1000)) = 1001%nat.
Proof. vm_compute. split; reflexivity. Qed.


(** ** No configuration is refused *)

Lemma loop_time_axis_zero_dt (Sp Tau K P Ki Kd dt : float) (n : nat) :
  is_zero dt = true ->
  simulation.T (Nat.iter n (simulation.loop_body Sp Tau K dt)
                  (simulation.loop_init P Ki Kd))
  = repeat 0 (S n).
Proof.
  intro Hdt. induction n as [|n IH]; [reflexivity|].
  rewrite Nat.iter_succ, loop_body_T, IH, last_elem_repeat.
  rewrite F64.add_pos_zero_zero by assumption.
  apply repeat_snoc.
Qed.

(** C4, amended.  [simulation.Simulation] checks nothing and raises no
    error: for every configuration, those with [dt <= 0], [N < 0] or
    [Tau = 0] included, it returns a time axis and an output sequence of
    [int(N) + 1] samples each (one when [int(N) <= 0]).  With [dt = 0] every
    iteration still runs and the time axis stays at 0; with [N < 0] the
    result is the initial sample alone. *)
Theorem Simulation_accepts_every_configuration
  (Sp Tau K P Ki Kd dt N : float) :
  let T := fst (simulation.Simulation Sp Tau K P Ki Kd dt N) in
  let measure := snd (simulation.Simulation Sp Tau K P Ki Kd dt N) in
  length T = S (Z.to_nat (Go.int N))
  /\ length measure = S (Z.to_nat (Go.int N))
  /\ (is_zero dt = true -> T = repeat 0 (S (Z.to_nat (Go.int N))))
  /\ ((N <? 0) = true -> T = [0] /\ measure = [0]).
Proof.
  destruct (Simulation_shape Sp Tau K P Ki Kd dt N)
    as (HT & Hm & _).
  cbn zeta. split; [exact HT|]. split; [exact Hm|]. split.
  - intro Hdt. unfold simulation.Simulation, simulation.Simulation_loop.
    cbn [fst]. rewrite GoFacts.for_le_1_iter.
    now apply loop_time_axis_zero_dt.
  - intro HN.
    now rewrite Simulation_lt_one by (now apply F64.ltb_zero_ltb_one).
Qed.

(** The amended C4 at [dt = 0] with three iterations, and at [N = -1]. *)
Lemma Simulation_accepts_every_configuration_witness :
  fst (simulation.Simulation 10 1 1 5 10 0 0 3)
  = repeat 0 (S (Z.to_nat (Go.int 3)))
  /\ (fst (simulation.Simulation 10 1 1 5 10 0 0.001 (-1)) = [0]
      /\ snd (simulation.Simulation 10 1 1 5 10 0 0.001 (-1)) = [0]).
Proof.
  destruct (Simulation_accepts_every_configuration 10 1 1 5 10 0 0 3)
    as (_ & _ & Hzero & _).
  destruct (Simulation_accepts_every_configuration 10 1 1 5 10 0 0.001 (-1))
    as (_ & _ & _ & Hneg).
  split.
  - apply Hzero. vm_compute. reflexivity.
  - apply Hneg. vm_compute. reflexivity.
Defined.

(** C4 as stated fails: with [dt = 0] and [N = 3] the driver runs its
    three iterations and returns four samples; so it does with [Tau = 0],
    and with [N = -1] it returns the initial sample. *)
Lemma Simulation_accepts_zero_dt :
  simulation.Simulation 10 1 1 5 10 0 0 3 = ([0; 0; 0; 0], [0; nan; nan; nan])
  /\ simulation.Simulation 10 0 1 5 10 0 0.001 3
     = ([0; 0.001; 0.002; 0.003], [0; infinity; nan; nan])
  /\ simulation.Simulation 10 1 1 5 10 0 0.001 (-1) = ([0], [0]).
Proof. vm_compute. repeat split. Qed.

(** ** The iteration count is [int(N)] *)

(** C10.  [simulation.Simulation] runs [int(N)] iterations, and [int(N)]
    is [N], taken as a real number, truncated toward zero
    ([Spec.integer_part]).  For every [N < 1], negative or between 0 and
    1, it returns the single sample [([0], [0])]; for [N] whose integer
    part [z] is at least 1 (and fits an [int]) it runs [z] iterations and
    returns [z + 1] samples, the fraction of [N] discarded; and two counts
    with the same integer part give the same trajectory. *)
Theorem Simulation_truncates_N (Sp Tau K P Ki Kd dt N : float) :
  ((N <? 1) = true ->
   simulation.Simulation Sp Tau K P Ki Kd dt N = ([0], [0]))
  /\ (forall z : Z,
        Spec.integer_part N = Some z -> (1 <= z <= Go.max_int64)%Z ->
        Go.int N = z
        /\ length (fst (simulation.Simulation Sp Tau K P Ki Kd dt N))
           = S (Z.to_nat z)
        /\ length (snd (simulation.Simulation Sp Tau K P Ki Kd dt N))
           = S (Z.to_nat z))
  /\ (forall N' : float,
        Spec.integer_part N' = Spec.integer_part N ->
        simulation.Simulation Sp Tau K P Ki Kd dt N'
        = simulation.Simulation Sp Tau K P Ki Kd dt N).
Proof.
  split; [apply Simulation_lt_one|]. split.
  - intros z Hz Hrange. apply Simulation_count; [exact Hz|lia].
  - intros N' H. rewrite <- !SpecFacts.trunc_is_integer_part in H.
    unfold simulation.Simulation, simulation.Simulation_loop, Go.int.
    now rewrite H.
Qed.

(** C10 at [N = 0.9], [N = -2.5] and [N = 3.9]. *)
Lemma Simulation_truncates_N_witness :
  simulation.Simulation 10 1 1 5 10 0 0.1 0.9 = ([0], [0])
  /\ simulation.Simulation 10 1 1 5 10 0 0.1 (-2.5) = ([0], [0])
  /\ length (fst (simulation.Simulation 10 1 1 5 10 0 0.1 3.9))
     = S (Z.to_nat 3)
  /\ simulation.Simulation 10 1 1 5 10 0 0.1 3
     = simulation.Simulation 10 1 1 5 10 0 0.1 3.9.
Proof.
  destruct (Simulation_truncates_N 10 1 1 5 10 0 0.1 0.9) as [Hlow _].
  destruct (Simulation_truncates_N 10 1 1 5 10 0 0.1 (-2.5)) as [Hneg _].
  destruct (Simulation_truncates_N 10 1 1 5 10 0 0.1 3.9)
    as (_ & Hcount & Hsame).
  split; [|split; [|split]].
  - apply Hlow. vm_compute. reflexivity.
  - apply Hneg. vm_compute. reflexivity.
  - apply (Hcount 3%Z).
    + vm_compute. reflexivity.
    + vm_compute. split; discriminate.
  - apply Hsame. vm_compute. reflexivity.
Defined.

End DriverFacts.

(** * A controller with zero gains *)

Module ZeroGainFacts.

(** With zero gains every term of the output is a zero, as long as the
    values the gains multiply are finite. *)
Lemma Compute_zero_gains (pid : simulation.PID)
  (setpoint currentValue dt : float) :
  is_zero (simulation.Kp pid) = true ->
  is_zero (simulation.Ki pid) = true ->
  is_zero (simulation.Kd pid) = true ->
  (0 <? dt) = true ->
  is_finite (setpoint - currentValue) = true ->
  is_finite (simulation.integral pid + (setpoint - currentValue) * dt)
  = true ->
  is_finite (setpoint - currentValue - simulation.previouserror_pid pid)
  = true ->
  is_zero (fst (simulation.Compute pid setpoint currentValue dt)) = true.
Proof.
  intros HP HI HD Hdt He Hi Hd.
  unfold simulation.Compute. cbn [fst].
  apply F64.add_zero_zero; [apply F64.add_zero_zero|].
  - now apply F64.mul_zero_finite.
  - now apply F64.mul_zero_finite.
  - apply F64.div_zero_pos; [|exact Hdt].
    now apply F64.mul_zero_finite.
Qed.

(** Without actuation the lag plant stays at zero. *)
Lemma DynamicResponse_zero (un dt Tau K : float) :
  is_zero un = true ->
  is_finite K = true ->
  is_finite (dt / Tau) = true ->
  simulation.DynamicResponse un 0 dt Tau K = 0.
Proof.
  intros Hu HK Hr. unfold simulation.DynamicResponse.
  rewrite F64.sub_zero_r. apply F64.add_zero_pos_zero.
  apply F64.mul_finite_zero; [exact Hr|].
  now apply F64.mul_finite_zero.
Qed.

Section ZeroGainRun.

Variables Sp Tau K P Ki Kd dt : float.

Hypothesis P_zero : is_zero P = true.
Hypothesis Ki_zero : is_zero Ki = true.
Hypothesis Kd_zero : is_zero Kd = true.
Hypothesis dt_pos : (0 <? dt) = true.
Hypothesis Sp_finite : is_finite Sp = true.
Hypothesis K_finite : is_finite K = true.
Hypothesis ratio_finite : is_finite (dt / Tau) = true.

(** As long as the integral has stayed finite, [n] iterations have
    produced zeros only. *)
Lemma zero_gain_loop (n : nat) :
  let s := Nat.iter n (simulation.loop_body Sp Tau K dt)
             (simulation.loop_init P Ki Kd) in
  is_finite (simulation.integral (simulation.pid s)) = true ->
  simulation.measure s = repeat 0 (S n)
  /\ simulation.Kp (simulation.pid s) = P
  /\ simulation.Ki (simulation.pid s) = Ki
  /\ simulation.Kd (simulation.pid s) = Kd
  /\ (simulation.previouserror_pid (simulation.pid s) = 0
      \/ simulation.previouserror_pid (simulation.pid s) = Sp).
Proof.
  induction n as [|n IH]; cbn zeta in *.
  - intros _. cbn. repeat split. now left.
  - rewrite Nat.iter_succ. set (s := Nat.iter n _ _) in *.
    rewrite DriverFacts.loop_body_pid, DriverFacts.loop_body_measure.
    rewrite ControllerFacts.Compute_state.
    cbn [simulation.integral simulation.Kp simulation.Ki simulation.Kd
         simulation.previouserror_pid].
    intro Hfin.
    destruct (IH (F64.add_finite_inv _ _ Hfin))
      as (Hm & HP & HI & HD & Hprev).
    rewrite Hm, DriverFacts.last_elem_repeat, F64.sub_zero_r in *.
    repeat split; auto.
    rewrite DynamicResponse_zero; [apply DriverFacts.repeat_snoc| | |];
      try assumption.
    apply Compute_zero_gains; rewrite ?HP, ?HI, ?HD, ?F64.sub_zero_r;
      try assumption.
    destruct Hprev as [-> | ->].
    + now rewrite F64.sub_zero_r.
    + apply F64.zero_is_finite. now apply F64.sub_diag_finite.
Qed.

Lemma zero_gain_Simulation (N : float) :
  is_finite
    (simulation.integral
       (simulation.pid (simulation.Simulation_loop Sp Tau K P Ki Kd dt N)))
  = true ->
  snd (simulation.Simulation Sp Tau K P Ki Kd dt N)
  = repeat 0 (S (Z.to_nat (Go.int N))).
Proof.
  unfold simulation.Simulation, simulation.Simulation_loop. cbn [snd].
  rewrite GoFacts.for_le_1_iter. intro H.
  now destruct (zero_gain_loop _ H).
Qed.

End ZeroGainRun.

(** C8, amended.  With [Kp = Ki = Kd = 0] and [dt > 0], [Compute] returns
    a zero whenever the error [setpoint - currentValue], the updated
    integral and the difference between the error and the previous error
    are finite.  Consequently, for the lag plant started at [y = 0], with
    finite [Sp], [K] and [dt / Tau], every output sample is 0 provided the
    controller's integral is still finite when the run ends. *)
Theorem zero_gains_no_actuation :
  (forall (pid : simulation.PID) (setpoint currentValue dt : float),
     is_zero (simulation.Kp pid) = true ->
     is_zero (simulation.Ki pid) = true ->
     is_zero (simulation.Kd pid) = true ->
     (0 <? dt) = true ->
     is_finite (setpoint - currentValue) = true ->
     is_finite (simulation.integral pid + (setpoint - currentValue) * dt)
     = true ->
     is_finite (setpoint - currentValue - simulation.previouserror_pid pid)
     = true ->
     is_zero (fst (simulation.Compute pid setpoint currentValue dt)) = true)
  /\ (forall Sp Tau K P Ki Kd dt N : float,
        is_zero P = true -> is_zero Ki = true -> is_zero Kd = true ->
        (0 <? dt) = true ->
        is_finite Sp = true -> is_finite K = true ->
        is_finite (dt / Tau) = true ->
        is_finite
          (simulation.integral
             (simulation.pid
                (simulation.Simulation_loop Sp Tau K P Ki Kd dt N)))
        = true ->
        snd (simulation.Simulation Sp Tau K P Ki Kd dt N)
        = repeat 0 (S (Z.to_nat (Go.int N)))).
Proof.
  split.
  - exact Compute_zero_gains.
  - intros. now apply zero_gain_Simulation.
Qed.

(** The amended C8 at a controller in mid-run and at the step response of
    the repository's demonstration (1000 steps of 1 ms toward 10). *)
Lemma zero_gains_no_actuation_witness :
  is_zero
    (fst (simulation.Compute (simulation.mkPID 0 0 0 2.5 1) 10 3 0.001))
  = true
  /\ snd (simulation.Simulation 10 1 1 0 0 0 0.001 1000)
     = repeat 0 (S (Z.to_nat (Go.int 1000))).
Proof.
  split.
  - apply (proj1 zero_gains_no_actuation); vm_compute; reflexivity.
  - apply (proj2 zero_gains_no_actuation); vm_compute; reflexivity.
Defined.

(** C8 as stated fails.  With zero gains and [dt = 1], finite inputs and
    a finite state make [Compute] return NaN as soon as the error
    ([1.7e308 - (-1.7e308)]), the integral ([1.7e308 + 1e308]) or the
    difference to the previous error ([1.7e308 - (-1.7e308)]) overflows.
    In a run, [Sp = 1e308] with [dt = 1] overflows the integral at the
    second step, and [dt = 1e300] with [Tau = 1e-300] overflows [dt / Tau]:
    the outputs are NaN from there on. *)
Lemma zero_gains_counterexample :
  fst (simulation.Compute (simulation.NewPID 0 0 0) 1.7e308 (-1.7e308) 1)
  = nan
  /\ fst (simulation.Compute (simulation.mkPID 0 0 0 1.7e308 0) 1e308 0 1)
     = nan
  /\ fst (simulation.Compute (simulation.mkPID 0 0 0 0 (-1.7e308))
            1.7e308 0 1)
     = nan
  /\ (is_finite 1.7e308 = true /\ is_finite 1e308 = true)
  /\ snd (simulation.Simulation 1e308 1 1 0 0 0 1 3) = [0; 0; nan; nan]
  /\ snd (simulation.Simulation 1 1e-300 1 0 0 0 1e300 1) = [0; nan].
Proof. vm_compute. repeat split. Qed.

End ZeroGainFacts.

(** * Two runs in one process *)

Module ProcessFacts.

Lemma load_alloc (h : Process.heap) (v : simulation.PID) :
  Process.load (length h) (h ++ [v]) = Some v.
Proof.
  unfold Process.load.
  now rewrite nth_error_app2, Nat.sub_diag by lia.
Qed.

Lemma store_alloc (h : Process.heap) (v v' : simulation.PID) :
  Process.store (length h) v' (h ++ [v]) = h ++ [v'].
Proof. induction h as [|x h IH]; cbn; [reflexivity | now rewrite IH]. Qed.

(** A call through the pointer to the newest controller updates that
    controller and nothing else. *)
Lemma Compute_newest (h : Process.heap) (pid : simulation.PID)
  (setpoint currentValue dt : float) :
  Process.Compute (length h) setpoint currentValue dt (h ++ [pid])
  = Some (fst (simulation.Compute pid setpoint currentValue dt),
          h ++ [snd (simulation.Compute pid setpoint currentValue dt)]).
Proof.
  unfold Process.Compute. rewrite load_alloc.
  destruct (simulation.Compute pid setpoint currentValue dt) as [out pid'].
  now rewrite store_alloc.
Qed.

(** The loop on the heap goes through the states of the loop of
    [simulation.Simulation], its controller kept in the newest cell. *)
Lemma loop_on_heap (h : Process.heap) (Sp Tau K P Ki Kd dt : float)
  (n : nat) :
  Nat.iter n (Process.loop_body (length h) Sp Tau K dt)
    (Some (Process.mkLoop [0] [0] 0 (h ++ [simulation.NewPID P Ki Kd])))
  = let s := Nat.iter n (simulation.loop_body Sp Tau K dt)
               (simulation.loop_init P Ki Kd) in
    Some (Process.mkLoop (simulation.measure s) (simulation.T s)
            (simulation.un s) (h ++ [simulation.pid s])).
Proof.
  induction n as [|n IH]; [reflexivity|].
  rewrite !Nat.iter_succ, IH. cbn zeta.
  set (s := Nat.iter n _ _).
  unfold Process.loop_body, simulation.loop_body.
  cbn [Process.measure Process.T Process.mem].
  rewrite Compute_newest.
  now destruct (simulation.Compute _ _ _ _) as [out pid'].
Qed.

Lemma Simulation_on_heap (Sp Tau K P Ki Kd dt N : float)
  (h : Process.heap) :
  Process.Simulation Sp Tau K P Ki Kd dt N h
  = Some (simulation.Simulation Sp Tau K P Ki Kd dt N,
          h ++ [simulation.pid
                  (simulation.Simulation_loop Sp Tau K P Ki Kd dt N)]).
Proof.
  unfold Process.Simulation, Process.NewPID, Process.alloc,
    simulation.Simulation, simulation.Simulation_loop.
  rewrite !GoFacts.for_le_1_iter, loop_on_heap. reflexivity.
Qed.

(** C9.  [Simulation] called twice with the same arguments, the second
    call running in the heap the first one left (its used controller
    included), returns the same time axis and the same outputs, sample by
    sample; and so it does from any two heaps: the result is a function of
    the eight arguments alone. *)
Theorem Simulation_deterministic (Sp Tau K P Ki Kd dt N : float)
  (h h' : Process.heap) :
  exists (T measure : list float) (h1 h2 h1' : Process.heap),
    Process.Simulation Sp Tau K P Ki Kd dt N h = Some ((T, measure), h1)
    /\ Process.Simulation Sp Tau K P Ki Kd dt N h1 = Some ((T, measure), h2)
    /\ Process.Simulation Sp Tau K P Ki Kd dt N h' = Some ((T, measure), h1')
    /\ (T, measure) = simulation.Simulation Sp Tau K P Ki Kd dt N.
Proof.
  destruct (simulation.Simulation Sp Tau K P Ki Kd dt N) as [T measure] eqn:E.
  exists T, measure.
  eexists. eexists. eexists.
  rewrite !Simulation_on_heap, E. repeat split.
Qed.

End ProcessFacts.

(** * The electrical plant *)

Module ElectricalFacts.

(** C6.  At zero capacitance [ComputeImpedance] does divide by zero: for
    the system [main.Simulation] builds ([C = 0], [R = 0]), whatever
    [Pow] and [Atan2] are, the capacitive reactance is [1/0 = +Inf], the
    net reactance [-Inf], and the result is computed from those; with the
    library's [Pow] the modulus is [+Inf].  [ComputeReactivePowerSys]
    takes the capacitive reactance to be 0 in that case. *)
Theorem ComputeImpedance_zero_capacitance
  (Pow Atan2 : float -> float -> float) :
  main.ComputeImpedance Pow Atan2 main.reference_system
  = (math.Sqrt (Pow 0 2 + Pow neg_infinity 2), Atan2 neg_infinity 0)
  /\ fst (main.ComputeImpedance math.Pow Atan2 main.reference_system)
     = infinity
  /\ (forall I : float,
        main.ComputeReactivePowerSys Pow main.reference_system I
        = Pow I 2 * (2 * math.Pi * 50 * 2.8e-3) - Pow I 2 * 0).
Proof.
  split; [|split].
  - unfold main.ComputeImpedance, main.reference_system.
    cbn [main.L main.C main.R main.f].
    replace (2 * math.Pi * 50 * 2.8e-3 - 1 / (2 * math.Pi * 50 * 0))
      with neg_infinity by (vm_compute; reflexivity).
    reflexivity.
  - unfold main.ComputeImpedance, main.reference_system.
    cbn [main.L main.C main.R main.f fst].
    vm_compute. reflexivity.
  - intro I. reflexivity.
Qed.

(** C7.  For every system, so for every one with [U_poc <> 0],
    [ComputeQPoc(P, Q)] returns [Q + Q_sys] with [S = sqrt(P^2 + Q^2)],
    [I = S / U_poc], [Q_sys = I^2 * X_L - I^2 * X_C], [X_L = 2 pi f L] and
    [X_C = 1 / (2 pi f C)] unless [C = 0], where [X_C = 0]; squares are
    taken by [Pow].  [S >= 0] holds for all powers [P] and [Q] that are
    numbers (not NaN): with the library's [Pow], and with any [Pow] that
    gives numbers a square that is not negative.  With any [Pow] at all,
    [S] is never negative. *)
Theorem ComputeQPoc_formula (Pow : float -> float -> float)
  (sys : main.ElectricalSystem) (Pond Qond : float) :
  let X_L := 2 * math.Pi * main.f sys * main.L sys in
  let X_C :=
    if main.C sys =? 0 then 0
    else 1 / (2 * math.Pi * main.f sys * main.C sys) in
  let S := math.Sqrt (Pow Pond 2 + Pow Qond 2) in
  let I := S / main.UPoc sys in
  let Q_sys := Pow I 2 * X_L - Pow I 2 * X_C in
  main.ComputeQPoc Pow sys Pond Qond = Qond + Q_sys
  /\ main.ComputeS Pow sys Pond Qond = S
  /\ (is_nan S = true \/ (0 <=? S) = true)
  /\ ((forall x : float, is_nan x = false -> (0 <=? Pow x 2) = true) ->
      is_nan Pond = false -> is_nan Qond = false ->
      (0 <=? S) = true)
  /\ (is_nan Pond = false -> is_nan Qond = false ->
      (0 <=? main.ComputeS math.Pow sys Pond Qond) = true).
Proof.
  cbn zeta. split; [reflexivity|]. split; [reflexivity|]. split; [|split].
  - apply F64.sqrt_nonneg.
  - intros HPow HP HQ. unfold math.Sqrt.
    apply F64.sqrt_nonneg_of_nonneg, F64.add_nonneg; now apply HPow.
  - intros HP HQ. unfold main.ComputeS, math.Sqrt.
    apply F64.sqrt_nonneg_of_nonneg, F64.add_nonneg;
      now apply MathFacts.Pow_square_nonneg.
Qed.

(** C7 with the library's [Pow], at the active power of [main] and a
    commanded reactive power of 250 kvar. *)
Lemma ComputeQPoc_formula_witness :
  (0 <=? math.Sqrt (math.Pow 1e6 2 + math.Pow 250000 2)) = true
  /\ (0 <=? main.ComputeS math.Pow main.reference_system 1e6 250000) = true.
Proof.
  destruct (ComputeQPoc_formula math.Pow main.reference_system 1e6 250000)
    as (_ & _ & _ & Hnonneg & Hlib).
  split.
  - apply Hnonneg.
    + exact MathFacts.Pow_square_nonneg.
    + reflexivity.
    + reflexivity.
  - apply Hlib; reflexivity.
Defined.

(** Outside the numbers: a NaN power makes the apparent power NaN. *)
Example ComputeS_nan :
  main.ComputeS math.Pow main.reference_system nan 0 = nan
  /\ (0 <=? main.ComputeS math.Pow main.reference_system nan 0) = false
  /\ (0 <=? main.ComputeS math.Pow main.reference_system 1e6 nan) = false.
Proof. vm_compute. repeat split. Qed.

End ElectricalFacts.

(** * The plotting front ends *)

Module GraphFacts.

Lemma set_nth_middle (a b : list graph.XY) (old v : graph.XY) (k : nat) :
  length a = k -> graph.set_nth k v (a ++ old :: b) = a ++ v :: b.
Proof.
  intros <-. induction a as [|x a IH]; cbn; [reflexivity | now rewrite IH].
Qed.

Lemma nth_middle_XY (a b : list graph.XY) (v : graph.XY) (k : nat) :
  length a = k -> nth k (a ++ v :: b) (0, 0) = v.
Proof. intros <-. apply nth_middle. Qed.

Lemma firstn_succ_nth_error {A : Type} (l : list A) (k : nat) (v : A) :
  nth_error l k = Some v -> firstn (S k) l = firstn k l ++ [v].
Proof.
  revert k. induction l as [|x l IH]; intros [|k] H; try discriminate.
  - cbn in H. injection H as ->. reflexivity.
  - cbn in H. change (x :: firstn (S k) l = x :: (firstn k l ++ [v])).
    f_equal. now apply IH.
Qed.

Lemma nth_error_combine {A B : Type} (l : list A) (l' : list B)
  (k : nat) (x : A) (y : B) :
  nth_error l k = Some x -> nth_error l' k = Some y ->
  nth_error (combine l l') k = Some (x, y).
Proof.
  revert l' k. induction l as [|a l IH]; intros [|b l'] [|k] Hx Hy;
    try discriminate; cbn in *.
  - now injection Hx as ->; injection Hy as ->.
  - now apply IH.
Qed.

Lemma nth_error_in_range {A : Type} (l : list A) (k : nat) :
  k < length l -> exists v, nth_error l k = Some v.
Proof.
  intro H. destruct (nth_error l k) eqn:E; [eauto|].
  apply nth_error_None in E. lia.
Qed.

(** After [k] turns the first [k] points are filled, the others are still
    the zero value. *)
Lemma fill_prefix (X Y : list float) (k : nat) :
  k <= length X -> k <= length Y ->
  fold_left (graph.fill_point X Y) (seq 0 k)
    (Some (repeat (0, 0) (length X)))
  = Some (firstn k (combine X Y) ++ repeat (0, 0) (length X - k)).
Proof.
  induction k as [|k IH]; intros HX HY.
  - cbn. now rewrite Nat.sub_0_r.
  - rewrite seq_S, fold_left_app, IH by lia. cbn [fold_left Nat.add].
    destruct (nth_error_in_range X k) as [x Hx]; [lia|].
    destruct (nth_error_in_range Y k) as [y Hy]; [lia|].
    unfold graph.fill_point. rewrite Hx, Hy.
    assert (Hlen : length (firstn k (combine X Y)) = k).
    { rewrite length_firstn, length_combine. lia. }
    replace (length X - k)%nat with (S (length X - S k)) by lia.
    cbn [repeat].
    rewrite (nth_middle_XY _ _ _ k Hlen), (set_nth_middle _ _ _ _ k Hlen).
    rewrite (nth_middle_XY _ _ _ k Hlen), (set_nth_middle _ _ _ _ k Hlen).
    cbn [fst snd].
    rewrite (firstn_succ_nth_error _ k (x, y))
      by (now apply nth_error_combine).
    now rewrite <- app_assoc.
Qed.

Lemma fill_point_panicked (X Y : list float) (l : list nat) :
  fold_left (graph.fill_point X Y) l None = None.
Proof. induction l as [|i l IH]; [reflexivity | exact IH]. Qed.

(** [make_points] pairs [X] with the head of [Y], and panics when [Y] is
    the shorter. *)
Lemma make_points_long (X Y : list float) :
  length X <= length Y -> graph.make_points X Y = Some (combine X Y).
Proof.
  intro H. unfold graph.make_points. rewrite fill_prefix by lia.
  rewrite Nat.sub_diag, app_nil_r. cbn [repeat].
  rewrite firstn_all2; [reflexivity|]. rewrite length_combine. lia.
Qed.

Lemma make_points_short (X Y : list float) :
  length Y < length X -> graph.make_points X Y = None.
Proof.
  intro H. unfold graph.make_points.
  replace (length X) with (length Y + S (length X - S (length Y)))%nat
    at 1 by lia.
  rewrite seq_app, fold_left_app, fill_prefix by lia.
  cbn [seq fold_left Nat.add]. unfold graph.fill_point at 2.
  destruct (nth_error_in_range X (length Y)) as [x ->]; [lia|].
  replace (nth_error Y (length Y)) with (@None float)
    by (symmetry; apply nth_error_None; lia).
  apply fill_point_panicked.
Qed.

(** X1.  [Line] of package [main] does not stop at a length mismatch: when
    [Y] is at least as long as [X] it hands the plotting library the
    [len(X)] points [(X[i], Y[i])] and ignores the rest of [Y]; when [Y]
    is shorter it panics on the index [len(Y)]. *)
Theorem main_Line_on_mismatch (X Y : list float) :
  (length X <= length Y -> graph.main_Line X Y = graph.Plot [combine X Y])
  /\ (length Y < length X -> graph.main_Line X Y = graph.IndexPanic).
Proof.
  unfold graph.main_Line. split; intro H.
  - now rewrite make_points_long.
  - now rewrite make_points_short.
Qed.

(** Two samples against three, and against one. *)
Lemma main_Line_on_mismatch_witness :
  graph.main_Line [1; 2] [5; 6; 7] = graph.Plot [combine [1; 2] [5; 6; 7]]
  /\ graph.main_Line [1; 2] [5] = graph.IndexPanic.
Proof.
  split.
  - apply (proj1 (main_Line_on_mismatch [1; 2] [5; 6; 7])). cbn. lia.
  - apply (proj2 (main_Line_on_mismatch [1; 2] [5])). cbn. lia.
Defined.

(** X2.  [Line] of package [simulation] hands the plotting library the
    points [(X[i], Y[i])] when the two slices have the same length and
    returns without plotting otherwise; it never indexes out of range. *)
Theorem Line_checks_lengths (X Y : list float) :
  graph.Line X Y
  = if (length X =? length Y)%nat then graph.Plot [combine X Y]
    else graph.Return.
Proof.
  unfold graph.Line. destruct (Nat.eqb_spec (length X) (length Y)) as [E|E].
  - cbn [negb]. rewrite make_points_long; [reflexivity | lia].
  - reflexivity.
Qed.

Lemma add_lines (X : list float) (Ys : list (list float)) :
  forall lines : list (list graph.XY),
    forallb (fun Y => (length X =? length Y)%nat) Ys = true ->
    fold_left (graph.add_line X) Ys (graph.Plot lines)
    = graph.Plot (lines ++ map (combine X) Ys).
Proof.
  induction Ys as [|Y Ys IH]; intros lines H; cbn [fold_left map forallb] in *.
  - now rewrite app_nil_r.
  - apply andb_true_iff in H. destruct H as [HY HYs].
    apply Nat.eqb_eq in HY. unfold graph.add_line at 2.
    rewrite make_points_long by lia. rewrite IH by assumption.
    now rewrite <- app_assoc.
Qed.

Lemma existsb_negb_forallb {A : Type} (f : A -> bool) (l : list A) :
  existsb (fun x => negb (f x)) l = negb (forallb f l).
Proof.
  induction l as [|x l IH]; cbn; [reflexivity|].
  rewrite IH. now destruct (f x).
Qed.

(** X3.  [MultipleLine] draws all the curves or none: it hands the
    plotting library one line of [len(X)] points per element of [Ys], in
    order, when every element has the length of [X], and nothing at all
    when one of them differs.  It never indexes out of range. *)
Theorem MultipleLine_all_or_nothing (X : list float)
  (Ys : list (list float)) :
  graph.MultipleLine X Ys
  = if forallb (fun Y => (length X =? length Y)%nat) Ys
    then graph.Plot (map (combine X) Ys)
    else graph.Return.
Proof.
  unfold graph.MultipleLine.
  rewrite (existsb_negb_forallb (fun Y => (length X =? length Y)%nat)).
  destruct (forallb _ Ys) eqn:E; cbn [negb]; [|reflexivity].
  now rewrite add_lines.
Qed.

End GraphFacts.

(** * Runs of [simulation.Simulation] *)

Module RunFacts.

Lemma last_elem_map_seq (g : nat -> float) (n : nat) :
  Go.last_elem (map g (seq 0 (S n))) = g n.
Proof.
  rewrite seq_S, map_app. cbn [map Nat.add].
  now rewrite GoFacts.last_elem_app.
Qed.

(** The time axis after [n] iterations: sample [k] is [dt] added [k]
    times to 0. *)
Lemma loop_time_axis (Sp Tau K P Ki Kd dt : float) (n : nat) :
  simulation.T (Nat.iter n (simulation.loop_body Sp Tau K dt)
                  (simulation.loop_init P Ki Kd))
  = map (fun k => Nat.iter k (fun t => t + dt) 0) (seq 0 (S n)).
Proof.
  induction n as [|n IH]; [reflexivity|].
  rewrite Nat.iter_succ, DriverFacts.loop_body_T, IH, last_elem_map_seq.
  rewrite (seq_S (S n) 0), map_app. reflexivity.
Qed.





(** X5.  The time axis is a function of [dt] and [int(N)] alone: sample
    [k] is 0 with [dt] added [k] times, one binary64 addition after the
    other, whatever the set point, the plant and the gains are. *)
Theorem Simulation_time_axis (Sp Tau K P Ki Kd dt N : float) :
  fst (simulation.Simulation Sp Tau K P Ki Kd dt N)
  = map (fun k => Nat.iter k (fun t => t + dt) 0)
      (seq 0 (S (Z.to_nat (Go.int N))))
  /\ (forall Sp' Tau' K' P' Ki' Kd' : float,
        fst (simulation.Simulation Sp' Tau' K' P' Ki' Kd' dt N)
        = fst (simulation.Simulation Sp Tau K P Ki Kd dt N)).
Proof.
  unfold simulation.Simulation, simulation.Simulation_loop.
  cbn [fst]. split.
  - rewrite GoFacts.for_le_1_iter. apply loop_time_axis.
  - intros. rewrite !GoFacts.for_le_1_iter. now rewrite !loop_time_axis.
Qed.

(** ** The system at rest *)

Lemma Compute_at_rest (P Ki Kd dt : float) :
  is_finite P = true -> is_finite Ki = true -> is_finite Kd = true ->
  is_finite dt = true -> is_zero dt = false ->
  is_zero (fst (simulation.Compute (simulation.NewPID P Ki Kd) 0 0 dt)) = true
  /\ snd (simulation.Compute (simulation.NewPID P Ki Kd) 0 0 dt)
     = simulation.NewPID P Ki Kd.
Proof.
  intros HP HKi HKd Hdt Hnz.
  assert (Hz : is_zero 0 = true) by reflexivity.
  assert (Hint : 0 + (0 - 0) * dt = 0).
  { apply F64.add_pos_zero_zero. now apply F64.mul_zero_finite. }
  split.
  - unfold simulation.Compute, simulation.NewPID, simulation.set_integral,
      simulation.set_previouserror_pid.
    cbn [fst simulation.Kp simulation.Ki simulation.Kd simulation.integral
         simulation.previouserror_pid].
    rewrite Hint.
    apply F64.add_zero_zero; [apply F64.add_zero_zero|].
    + now apply F64.mul_finite_zero.
    + now apply F64.mul_finite_zero.
    + apply F64.div_zero_nonzero.
      * now apply F64.mul_finite_zero.
      * exact Hnz.
      * rewrite F64.is_finite_spec in Hdt. rewrite F64.is_nan_spec.
        now destruct (Prim2SF dt).
  - rewrite ControllerFacts.Compute_state. unfold simulation.NewPID.
    cbn [simulation.Kp simulation.Ki simulation.Kd simulation.integral].
    now rewrite Hint.
Qed.

Lemma loop_at_rest (Tau K P Ki Kd dt : float) (n : nat) :
  is_finite P = true -> is_finite Ki = true -> is_finite Kd = true ->
  is_finite K = true -> is_finite dt = true -> is_zero dt = false ->
  is_finite (dt / Tau) = true ->
  let s := Nat.iter n (simulation.loop_body 0 Tau K dt)
             (simulation.loop_init P Ki Kd) in
  simulation.measure s = repeat 0 (S n)
  /\ simulation.pid s = simulation.NewPID P Ki Kd.
Proof.
  intros HP HKi HKd HK Hdt Hnz Hstep. cbn zeta.
  induction n as [|n [IHm IHp]]; [now split|].
  rewrite Nat.iter_succ, DriverFacts.loop_body_measure,
    DriverFacts.loop_body_pid, IHm, IHp, DriverFacts.last_elem_repeat.
  destruct (Compute_at_rest P Ki Kd dt HP HKi HKd Hdt Hnz) as [Hu Hpid].
  split; [|exact Hpid].
  rewrite ZeroGainFacts.DynamicResponse_zero by assumption.
  apply DriverFacts.repeat_snoc.
Qed.

(** X6.  A system at rest stays at rest: with the set point 0, finite
    gains, a finite plant gain, a finite step [dt] other than 0 and a
    finite ratio [dt/Tau], every output sample is 0. *)
Theorem Simulation_at_rest (Tau K P Ki Kd dt N : float) :
  is_finite P = true -> is_finite Ki = true -> is_finite Kd = true ->
  is_finite K = true -> is_finite dt = true -> is_zero dt = false ->
  is_finite (dt / Tau) = true ->
  snd (simulation.Simulation 0 Tau K P Ki Kd dt N)
  = repeat 0 (S (Z.to_nat (Go.int N))).
Proof.
  intros HP HKi HKd HK Hdt Hnz Hstep.
  unfold simulation.Simulation, simulation.Simulation_loop. cbn [snd].
  rewrite GoFacts.for_le_1_iter.
  now destruct (loop_at_rest Tau K P Ki Kd dt (Z.to_nat (Go.int N))
                  HP HKi HKd HK Hdt Hnz Hstep).
Qed.

(** A thousand iterations of a PID controller with all three gains. *)
Lemma Simulation_at_rest_witness :
  snd (simulation.Simulation 0 1 1 5 10 0.5 0.001 1000)
  = repeat 0 (S (Z.to_nat (Go.int 1000))).
Proof.
  apply (Simulation_at_rest 1 1 5 10 0.5 0.001 1000); reflexivity.
Defined.

(** X7.  The steady state of the plant: when the output [yn] is finite,
    equal to [K * un], and [dt/Tau] is finite, [DynamicResponse] returns
    a value equal ([==]) to [yn]. *)
Theorem DynamicResponse_steady (un yn dt Tau K : float) :
  K * un = yn ->
  is_finite yn = true ->
  is_finite (dt / Tau) = true ->
  (simulation.DynamicResponse un yn dt Tau K =? yn) = true.
Proof.
  intros Heq Hy Hstep. unfold simulation.DynamicResponse. rewrite Heq.
  apply F64.add_zero_l_eqb; [|exact Hy].
  apply F64.mul_finite_zero; [exact Hstep|].
  now apply F64.sub_diag_finite.
Qed.

(** A plant of gain 2 driven by 5, its output at 10. *)
Lemma DynamicResponse_steady_witness :
  (simulation.DynamicResponse 5 10 0.001 1 2 =? 10) = true.
Proof.
  apply (DynamicResponse_steady 5 10 0.001 1 2); reflexivity.
Defined.

(** ** NaN samples *)

Lemma DynamicResponse_nan (un dt Tau K : float) :
  simulation.DynamicResponse un nan dt Tau K = nan.
Proof. unfold simulation.DynamicResponse. apply F64.add_nan_r. Qed.

Lemma loop_nan_absorbing (Sp Tau K P Ki Kd dt : float) (n : nat) :
  let m := simulation.measure
             (Nat.iter n (simulation.loop_body Sp Tau K dt)
                (simulation.loop_init P Ki Kd)) in
  forall k : nat,
    (S k < length m)%nat -> nth k m 0 = nan -> nth (S k) m 0 = nan.
Proof.
  induction n as [|n IH]; cbn zeta in *.
  - intros k Hk. cbn in Hk. lia.
  - destruct (DriverFacts.loop_shape Sp Tau K P Ki Kd dt n)
      as (_ & Hlen & _).
    cbn zeta in Hlen.
    rewrite Nat.iter_succ, DriverFacts.loop_body_measure.
    set (s := Nat.iter n (simulation.loop_body Sp Tau K dt)
                (simulation.loop_init P Ki Kd)) in *.
    intros k Hk. rewrite length_app in Hk. cbn [length] in Hk.
    destruct (Nat.eq_dec (S k) (length (simulation.measure s))) as [E|E].
    + rewrite app_nth1 by lia. rewrite E, nth_middle.
      rewrite DriverFacts.last_elem_nth
        by (now apply (DriverFacts.length_not_nil _ n)).
      replace (length (simulation.measure s) - 1)%nat with k by lia.
      intros ->. apply DynamicResponse_nan.
    + rewrite !app_nth1 by lia. apply IH. lia.
Qed.

(** X8.  NaN is absorbing: once an output sample of [Simulation] is NaN,
    the sample after it is NaN, and so is every later one. *)
Theorem Simulation_nan_absorbing (Sp Tau K P Ki Kd dt N : float) :
  let measure := snd (simulation.Simulation Sp Tau K P Ki Kd dt N) in
  forall k j : nat,
    (k <= j < length measure)%nat ->
    nth k measure 0 = nan -> nth j measure 0 = nan.
Proof.
  unfold simulation.Simulation, simulation.Simulation_loop. cbn [snd].
  rewrite GoFacts.for_le_1_iter. cbn zeta.
  intros k j [Hkj Hj] Hnan.
  induction j as [|j IHj].
  - now replace k with 0%nat in Hnan by lia.
  - destruct (Nat.eq_dec k (S j)) as [->|Hne]; [exact Hnan|].
    apply (loop_nan_absorbing Sp Tau K P Ki Kd dt (Z.to_nat (Go.int N)));
      [exact Hj|].
    apply IHj; lia.
Qed.

(** At [dt = 0] the second sample is NaN, and so is the fourth. *)
Lemma Simulation_nan_absorbing_witness :
  nth 3 (snd (simulation.Simulation 10 1 1 5 10 0 0 3)) 0 = nan.
Proof.
  apply (Simulation_nan_absorbing 10 1 1 5 10 0 0 3 1 3).
  - vm_compute. lia.
  - vm_compute. reflexivity.
Defined.

End RunFacts.

(** * One controller over a sequence of calls *)

Module CallFacts.

Import Controllers.

Lemma last_default {A : Type} (a : A) (l : list A) (d d' : A) :
  last (a :: l) d = last (a :: l) d'.
Proof.
  revert a. induction l as [|b l IH]; intro a; [reflexivity|].
  change (last (b :: l) d = last (b :: l) d'). apply IH.
Qed.

Lemma last_cons {A : Type} (a : A) (l : list A) (d : A) :
  last (a :: l) d = last l a.
Proof.
  destruct l as [|b l]; [reflexivity|].
  change (last (b :: l) d = last (b :: l) a). apply last_default.
Qed.

Lemma simulation_calls_cons (pid : simulation.PID) (dt : float)
  (sp cv : float) (rest : list (float * float)) :
  simulation_calls pid dt ((sp, cv) :: rest)
  = (fst (simulation.Compute pid sp cv dt)
       :: fst (simulation_calls (snd (simulation.Compute pid sp cv dt))
                 dt rest),
     snd (simulation_calls (snd (simulation.Compute pid sp cv dt)) dt rest)).
Proof.
  cbn [simulation_calls].
  destruct (simulation.Compute pid sp cv dt) as [out pid1]. cbn [fst snd].
  now destruct (simulation_calls pid1 dt rest).
Qed.

Lemma simulation_calls_length (dt : float) (calls : list (float * float)) :
  forall pid : simulation.PID,
    length (fst (simulation_calls pid dt calls)) = length calls.
Proof.
  induction calls as [|[sp cv] rest IH]; intro pid; [reflexivity|].
  rewrite simulation_calls_cons. cbn [fst length]. now rewrite IH.
Qed.

Lemma simulation_calls_snoc (dt : float) (calls : list (float * float))
  (sp cv : float) :
  forall pid : simulation.PID,
    simulation_calls pid dt (calls ++ [(sp, cv)])
    = (fst (simulation_calls pid dt calls)
         ++ [fst (simulation.Compute (snd (simulation_calls pid dt calls))
                    sp cv dt)],
       snd (simulation.Compute (snd (simulation_calls pid dt calls))
              sp cv dt)).
Proof.
  induction calls as [|[sp' cv'] rest IH]; intro pid.
  - cbn [app]. rewrite simulation_calls_cons. reflexivity.
  - change (((sp', cv') :: rest) ++ [(sp, cv)])
      with ((sp', cv') :: (rest ++ [(sp, cv)])).
    rewrite !simulation_calls_cons, IH. reflexivity.
Qed.

(** X9.  What a sequence of calls leaves in the controller: the three
    gains are those it started with, the integral is the initial one plus
    every [error * dt] in call order, the previous error is the error of
    the last call (the initial one when there was no call); and there is
    one output per call.  [error] is [setpoint - currentValue]. *)
Theorem simulation_calls_state (dt : float) (calls : list (float * float)) :
  forall pid : simulation.PID,
    let errors := map (fun c => fst c - snd c) calls in
    let outs := fst (simulation_calls pid dt calls) in
    let pid' := snd (simulation_calls pid dt calls) in
    length outs = length calls
    /\ simulation.Kp pid' = simulation.Kp pid
    /\ simulation.Ki pid' = simulation.Ki pid
    /\ simulation.Kd pid' = simulation.Kd pid
    /\ simulation.integral pid'
       = fold_left (fun acc e => acc + e * dt) errors
           (simulation.integral pid)
    /\ simulation.previouserror_pid pid'
       = last errors (simulation.previouserror_pid pid).
Proof.
  cbn zeta.
  induction calls as [|[sp cv] rest IH]; intro pid.
  - now repeat split.
  - rewrite simulation_calls_cons, ControllerFacts.Compute_state.
    cbn [fst snd length map fold_left]. rewrite last_cons.
    destruct (IH (simulation.mkPID (simulation.Kp pid) (simulation.Ki pid)
                    (simulation.Kd pid)
                    (simulation.integral pid + (sp - cv) * dt) (sp - cv)))
      as (Hlen & HKp & HKi & HKd & Hint & Hprev).
    cbn [simulation.Kp simulation.Ki simulation.Kd simulation.integral
         simulation.previouserror_pid] in HKp, HKi, HKd, Hint, Hprev.
    now rewrite Hlen, HKp, HKi, HKd, Hint, Hprev.
Qed.

Lemma combine_snoc {A B : Type} (l : list A) (l' : list B) (a : A) (b : B) :
  length l = length l' ->
  combine (l ++ [a]) (l' ++ [b]) = combine l l' ++ [(a, b)].
Proof.
  revert l'. induction l as [|x l IH]; intros [|y l'] H;
    try discriminate H; [reflexivity|].
  cbn [app combine]. f_equal. apply IH. now injection H.
Qed.

(** What [n] iterations of the loop of [Simulation] have computed, read
    as calls on one controller. *)
Lemma loop_as_calls (Sp Tau K P Ki Kd dt : float) (n : nat) :
  let s := Nat.iter n (simulation.loop_body Sp Tau K dt)
             (simulation.loop_init P Ki Kd) in
  let inputs := removelast (simulation.measure s) in
  let r := simulation_calls (simulation.NewPID P Ki Kd) dt
             (map (fun y => (Sp, y)) inputs) in
  simulation.pid s = snd r
  /\ simulation.measure s
     = 0 :: map (fun uy => simulation.DynamicResponse (fst uy) (snd uy)
                             dt Tau K)
              (combine (fst r) inputs).
Proof.
  induction n as [|n IH]; cbn zeta in *; [now split|].
  destruct IH as [IHp IHm].
  destruct (DriverFacts.loop_shape Sp Tau K P Ki Kd dt n) as (_ & Hlen & _).
  cbn zeta in Hlen.
  rewrite Nat.iter_succ, DriverFacts.loop_body_measure,
    DriverFacts.loop_body_pid.
  set (s := Nat.iter n (simulation.loop_body Sp Tau K dt)
              (simulation.loop_init P Ki Kd)) in *.
  rewrite removelast_last.
  assert (Hm : simulation.measure s
               = removelast (simulation.measure s)
                 ++ [Go.last_elem (simulation.measure s)]).
  { apply app_removelast_last.
    now apply (DriverFacts.length_not_nil _ n). }
  set (y := Go.last_elem (simulation.measure s)) in *.
  set (inputs := removelast (simulation.measure s)) in *.
  rewrite Hm at 1 3 4. rewrite map_app. cbn [map].
  rewrite simulation_calls_snoc. cbn [fst snd]. rewrite <- IHp.
  split; [reflexivity|].
  rewrite combine_snoc
    by (now rewrite simulation_calls_length, length_map).
  rewrite map_app. cbn [map fst snd]. rewrite IHm at 1. reflexivity.
Qed.

(** X10.  [Simulation] unfolded: its outputs are 0 followed by one Euler
    step of the plant per iteration, each from the output before it and
    the value one controller, created by [NewPID(P, Ki, Kd)], returns for
    that output when called with the set point on every output but the
    last, in order. *)
Theorem Simulation_as_calls (Sp Tau K P Ki Kd dt N : float) :
  let measure := snd (simulation.Simulation Sp Tau K P Ki Kd dt N) in
  let inputs := removelast measure in
  let un := fst (simulation_calls (simulation.NewPID P Ki Kd) dt
                   (map (fun y => (Sp, y)) inputs)) in
  length un = Z.to_nat (Go.int N)
  /\ measure
     = 0 :: map (fun uy => simulation.DynamicResponse (fst uy) (snd uy)
                             dt Tau K)
              (combine un inputs).
Proof.
  unfold simulation.Simulation, simulation.Simulation_loop. cbn [snd].
  rewrite GoFacts.for_le_1_iter. cbn zeta.
  destruct (loop_as_calls Sp Tau K P Ki Kd dt (Z.to_nat (Go.int N)))
    as [_ Hm].
  destruct (DriverFacts.loop_shape Sp Tau K P Ki Kd dt
              (Z.to_nat (Go.int N))) as (_ & Hlen & _).
  cbn zeta in Hm, Hlen. split; [|exact Hm].
  rewrite simulation_calls_length, length_map.
  destruct (simulation.measure _) as [|y0 m]; [discriminate Hlen|].
  injection Hlen as Hlen. rewrite <- Hlen.
  clear Hm Hlen. revert y0. induction m as [|y m IHl]; intro y0; [reflexivity|].
  change (S (length (removelast (y :: m))) = S (length m)).
  now rewrite IHl.
Qed.

End CallFacts.

(** * The closed loop of [main] and its plots *)

Module ClosedLoopFacts.

Section Response.

Variable Pow : float -> float -> float.

Lemma main_loop_response (QPoc_ref Pond kp ki kd dt : float) (n : nat) :
  let s := Nat.iter n (main.loop_body Pow QPoc_ref Pond dt)
             (main.mkLoop [main.Simulation Pow Pond 0] [0]
                (main.NewPID kp ki kd) [0]) in
  main.QPoc s = map (main.Simulation Pow Pond) (main.Qond s).
Proof.
  induction n as [|n IH]; cbn zeta in *; [reflexivity|].
  rewrite Nat.iter_succ.
  set (s := Nat.iter n _ _) in *. unfold main.loop_body.
  destruct (main.Compute _ _ _) as [u pid'].
  cbn [main.QPoc main.Qond].
  now rewrite GoFacts.last_elem_app, map_app, IH.
Qed.

Lemma main_calls_cons (pid : main.PID) (sp cv : float)
  (rest : list (float * float)) :
  Controllers.main_calls pid ((sp, cv) :: rest)
  = (fst (main.Compute pid sp cv)
       :: fst (Controllers.main_calls (snd (main.Compute pid sp cv)) rest),
     snd (Controllers.main_calls (snd (main.Compute pid sp cv)) rest)).
Proof.
  cbn [Controllers.main_calls].
  destruct (main.Compute pid sp cv) as [out pid1]. cbn [fst snd].
  now destruct (Controllers.main_calls pid1 rest).
Qed.

Lemma main_calls_snoc (calls : list (float * float)) (sp cv : float) :
  forall pid : main.PID,
    Controllers.main_calls pid (calls ++ [(sp, cv)])
    = (fst (Controllers.main_calls pid calls)
         ++ [fst (main.Compute (snd (Controllers.main_calls pid calls))
                    sp cv)],
       snd (main.Compute (snd (Controllers.main_calls pid calls)) sp cv)).
Proof.
  induction calls as [|[sp' cv'] rest IH]; intro pid.
  - cbn [app]. rewrite main_calls_cons. reflexivity.
  - change (((sp', cv') :: rest) ++ [(sp, cv)])
      with ((sp', cv') :: (rest ++ [(sp, cv)])).
    rewrite !main_calls_cons, IH. reflexivity.
Qed.

Lemma main_loop_as_calls (QPoc_ref Pond kp ki kd dt : float) (n : nat) :
  let s := Nat.iter n (main.loop_body Pow QPoc_ref Pond dt)
             (main.mkLoop [main.Simulation Pow Pond 0] [0]
                (main.NewPID kp ki kd) [0]) in
  let r := Controllers.main_calls (main.NewPID kp ki kd)
             (map (fun q => (QPoc_ref, q)) (removelast (main.QPoc s))) in
  main.pid s = snd r /\ main.Qond s = 0 :: fst r.
Proof.
  induction n as [|n IH]; cbn zeta in *; [now split|].
  destruct IH as [IHp IHq].
  destruct (DriverFacts.main_loop_shape Pow QPoc_ref Pond kp ki kd dt n)
    as (_ & Hlen & _).
  cbn zeta in Hlen. rewrite Nat.iter_succ.
  set (s := Nat.iter n _ _) in *.
  assert (Hq : main.QPoc s
               = removelast (main.QPoc s) ++ [Go.last_elem (main.QPoc s)]).
  { apply app_removelast_last.
    now apply (DriverFacts.length_not_nil _ n). }
  set (y := Go.last_elem (main.QPoc s)) in *.
  set (inputs := removelast (main.QPoc s)) in *.
  unfold main.loop_body. fold y.
  destruct (main.Compute (main.pid s) QPoc_ref y) as [u pid'] eqn:E.
  cbn [main.QPoc main.Qond main.pid].
  rewrite removelast_last, Hq, map_app. cbn [map].
  rewrite main_calls_snoc. cbn [fst snd]. rewrite <- IHp, E.
  cbn [fst snd]. split; [reflexivity|]. now rewrite IHq.
Qed.

End Response.

(** X11.  In the closed loop of [main] every sample of [QPoc] is the
    response [Simulation(Pond, q)] of the electrical system to the sample
    [q] of [Qond] at the same index, the first one, 0, included. *)
Theorem closed_loop_response (Pow : float -> float -> float)
  (QPoc_ref Pond kp ki kd : float) (numIterations : Z) (dt : float) :
  let s := main.closed_loop Pow QPoc_ref Pond kp ki kd numIterations dt in
  main.QPoc s = map (main.Simulation Pow Pond) (main.Qond s).
Proof.
  unfold main.closed_loop, Go.for_lt. apply main_loop_response.
Qed.

(** X12.  The two calls of [Line] that end [main] never meet a length
    mismatch: each hands the plotting library one line, pairing the time
    axis with [Qond], respectively [QPoc], sample by sample, and the line
    has as many points as the loop has built samples. *)
Theorem main_plots_every_sample (Pow : float -> float -> float)
  (QPoc_ref Pond kp ki kd : float) (numIterations : Z) (dt : float) :
  let s := main.closed_loop Pow QPoc_ref Pond kp ki kd numIterations dt in
  graph.main_Line (main.T s) (main.Qond s)
  = graph.Plot [combine (main.T s) (main.Qond s)]
  /\ graph.main_Line (main.T s) (main.QPoc s)
     = graph.Plot [combine (main.T s) (main.QPoc s)]
  /\ length (combine (main.T s) (main.Qond s))
     = S (Z.to_nat (numIterations - 1))
  /\ length (combine (main.T s) (main.QPoc s))
     = S (Z.to_nat (numIterations - 1)).
Proof.
  destruct (DriverFacts.closed_loop_shape Pow QPoc_ref Pond kp ki kd
              numIterations dt) as (HT & HP & HQ & _).
  cbn zeta in *. unfold graph.main_Line.
  rewrite !GraphFacts.make_points_long by lia.
  rewrite !length_combine, HT, HP, HQ, Nat.min_id. now repeat split.
Qed.

(** X13.  The commands of the closed loop of [main] come from one
    controller: [Qond] is 0 followed by what the controller created by
    [NewPID(kp, ki, kd)] returns when it is called, in order, with the
    reference and every sample of [QPoc] but the last. *)
Theorem closed_loop_as_calls (Pow : float -> float -> float)
  (QPoc_ref Pond kp ki kd : float) (numIterations : Z) (dt : float) :
  let s := main.closed_loop Pow QPoc_ref Pond kp ki kd numIterations dt in
  main.Qond s
  = 0 :: fst (Controllers.main_calls (main.NewPID kp ki kd)
                (map (fun q => (QPoc_ref, q)) (removelast (main.QPoc s)))).
Proof.
  unfold main.closed_loop, Go.for_lt.
  apply (main_loop_as_calls Pow QPoc_ref Pond kp ki kd dt).
Qed.

End ClosedLoopFacts.

(** * Reactive power without a capacitor, and at zero voltage *)

Module ReactiveFacts.

(** X14.  Without a capacitor ([C == 0], either zero) the reactive power
    of the system is the inductive part alone: when [I^2] is finite and
    [I^2 * X_L] is not NaN, [ComputeReactivePowerSys] returns a value
    equal ([==]) to [I^2 * X_L], with [X_L = 2 pi f L]. *)
Theorem ComputeReactivePowerSys_no_capacitor
  (Pow : float -> float -> float) (sys : main.ElectricalSystem)
  (I : float) :
  let X_L := 2 * math.Pi * main.f sys * main.L sys in
  is_zero (main.C sys) = true ->
  is_finite (Pow I 2) = true ->
  is_nan (Pow I 2 * X_L) = false ->
  (main.ComputeReactivePowerSys Pow sys I =? Pow I 2 * X_L) = true.
Proof.
  cbn zeta. intros HC HI HQ. unfold main.ComputeReactivePowerSys.
  change (main.C sys =? 0) with (is_zero (main.C sys)). rewrite HC.
  apply F64.sub_zero_eqb; [|exact HQ].
  now apply F64.mul_finite_zero.
Qed.

(** The system of [main.Simulation] at a current of 149.25 A. *)
Lemma ComputeReactivePowerSys_no_capacitor_witness :
  (main.ComputeReactivePowerSys math.Pow main.reference_system 149.25
   =? math.Pow 149.25 2 * (2 * math.Pi * 50 * 2.8e-3)) = true.
Proof.
  apply (ComputeReactivePowerSys_no_capacitor math.Pow
           main.reference_system 149.25); vm_compute; reflexivity.
Defined.

(** X15.  At zero voltage and without a capacitor the reactive power at
    the point of connection is NaN, whatever [P] and [Q] are: the current
    [S / 0] is NaN or infinite, and [I^2 * 0] is then NaN.  [Pow] is any
    function that squares NaN to NaN and the infinities to [+Inf], as the
    library's does. *)
Theorem ComputeQPoc_zero_voltage (Pow : float -> float -> float)
  (sys : main.ElectricalSystem) (Pond Qond : float) :
  Pow nan 2 = nan ->
  Pow infinity 2 = infinity ->
  Pow neg_infinity 2 = infinity ->
  is_zero (main.UPoc sys) = true ->
  is_zero (main.C sys) = true ->
  main.ComputeQPoc Pow sys Pond Qond = nan.
Proof.
  intros Hnan Hinf Hninf HU HC.
  unfold main.ComputeQPoc, main.ComputeReactivePowerSys.
  change (main.C sys =? 0) with (is_zero (main.C sys)). rewrite HC.
  assert (H0 : Pow (main.ComputeS Pow sys Pond Qond / main.UPoc sys) 2 * 0
               = nan).
  { destruct (F64.div_by_zero_shape (main.ComputeS Pow sys Pond Qond)
                (main.UPoc sys) HU) as [-> | [-> | ->]];
      rewrite ?Hnan, ?Hinf, ?Hninf; reflexivity. }
  rewrite H0, F64.sub_nan_r. apply F64.add_nan_r.
Qed.

(** The system of [main.Simulation] with its voltage set to 0, and the
    library's [Pow]. *)
Lemma ComputeQPoc_zero_voltage_witness :
  main.ComputeQPoc math.Pow (main.mkSys 2.8e-3 0 0 50 0) 1e6 250000 = nan.
Proof.
  apply (ComputeQPoc_zero_voltage math.Pow (main.mkSys 2.8e-3 0 0 50 0)
           1e6 250000); vm_compute; reflexivity.
Defined.

(** X16.  The apparent power does not depend on the system it is asked
    of, and is symmetric in the active and the reactive power. *)
Theorem ComputeS_symmetric (Pow : float -> float -> float)
  (sys sys' : main.ElectricalSystem) (Pond Qond : float) :
  main.ComputeS Pow sys Pond Qond = main.ComputeS Pow sys' Qond Pond.
Proof.
  unfold main.ComputeS. now rewrite F64.add_comm.
Qed.

End ReactiveFacts.

(** * [Simulation] and the controllers of the process *)

Module HeapFacts.

Lemma loop_gains (Sp Tau K P Ki Kd dt : float) (n : nat) :
  let pid := simulation.pid
               (Nat.iter n (simulation.loop_body Sp Tau K dt)
                  (simulation.loop_init P Ki Kd)) in
  simulation.Kp pid = P /\ simulation.Ki pid = Ki /\ simulation.Kd pid = Kd.
Proof.
  induction n as [|n IH]; cbn zeta in *; [now repeat split|].
  rewrite Nat.iter_succ, DriverFacts.loop_body_pid,
    ControllerFacts.Compute_state.
  exact IH.
Qed.

Lemma nth_error_length_app (h : Process.heap) (v : simulation.PID) :
  nth_error (h ++ [v]) (length h) = Some v.
Proof. induction h as [|x h IH]; [reflexivity|exact IH]. Qed.

(** X17.  [Simulation] allocates one controller and touches no other:
    it does not panic, the heap it leaves has one controller more, every
    controller that was there is unchanged, and the new one holds the
    gains [P], [Ki] and [Kd] it was created with. *)
Theorem Simulation_frame (Sp Tau K P Ki Kd dt N : float)
  (h : Process.heap) :
  exists (r : list float * list float) (h1 : Process.heap),
    Process.Simulation Sp Tau K P Ki Kd dt N h = Some (r, h1)
    /\ length h1 = S (length h)
    /\ (forall p : Process.pointer,
          (p < length h)%nat -> Process.load p h1 = Process.load p h)
    /\ (exists pid : simulation.PID,
          Process.load (length h) h1 = Some pid
          /\ simulation.Kp pid = P
          /\ simulation.Ki pid = Ki
          /\ simulation.Kd pid = Kd).
Proof.
  rewrite ProcessFacts.Simulation_on_heap. eexists. eexists.
  split; [reflexivity|]. split; [|split].
  - rewrite length_app. cbn [length]. lia.
  - intros p Hp. unfold Process.load. now rewrite nth_error_app1.
  - eexists. split.
    + unfold Process.load. apply nth_error_length_app.
    + unfold simulation.Simulation_loop. rewrite GoFacts.for_le_1_iter.
      apply loop_gains.
Qed.

End HeapFacts.
